(** * Feature maps of [code_tab/feature.py]

    A shallow embedding of the three classes of [feature.py]
    ([FeatureMap], [MarginalCDFMap], [RFFKGauss]) together with the parts of
    numpy and scipy they call.

    Conventions of the embedding.
    - A float is a real number ([R]): rounding, infinities and NaN are not
      modelled.
    - A two-dimensional numpy array is a record of its [shape] and its rows.
    - Python names are references into a heap of objects; an array that a
      call has just built is not aliased by anything and is carried as a
      value.
    - A method is a computation over the world (the process-wide numpy
      generator and the heap) that returns a value or raises. *)

From Stdlib Require Import Reals Lra Lia ZArith List Bool Arith.
From Stdlib Require Import Permutation Sorted.
Import ListNotations.

Local Open Scope R_scope.

(** ** Outcomes and exceptions *)

Inductive exn : Type :=
| ValueError
| TypeError
| AttributeError
| IndexError
| ZeroDivisionError.

Inductive outcome (A : Type) : Type :=
| Return (a : A)
| Raise (e : exn).

Arguments Return {A} a.
Arguments Raise {A} e.

(** ** numpy arrays *)

Record ndarray : Type := mk_ndarray {
  shape : nat * nat;
  data : list (list R)
}.

Definition nrows (A : ndarray) : nat := fst (shape A).
Definition ncols (A : ndarray) : nat := snd (shape A).

(** The rows of an n x d array: n lists of d numbers. *)
Definition wf_ndarray (A : ndarray) : Prop :=
  length (data A) = nrows A /\
  Forall (fun r => length r = ncols A) (data A).

(** [A[i, j]] *)
Definition entry (A : ndarray) (i j : nat) : R :=
  nth j (nth i (data A) []) 0.

(** [A[:, j]] *)
Definition col (A : ndarray) (j : nat) : list R :=
  map (fun r => nth j r 0) (data A).

(** [np.zeros((n, d))] *)
Definition np_zeros (n d : nat) : ndarray :=
  {| shape := (n, d); data := repeat (repeat 0 d) n |}.

Fixpoint set_nth (j : nat) (v : R) (r : list R) : list R :=
  match r, j with
  | [], _ => []
  | _ :: r', O => v :: r'
  | x :: r', S j' => x :: set_nth j' v r'
  end.

(** The rows of [Z] after [Z[:, j] = v], for [v] as long as [Z] has rows. *)
Fixpoint assign_col (j : nat) (rows : list (list R)) (v : list R)
  : list (list R) :=
  match rows, v with
  | r :: rows', x :: v' => set_nth j x r :: assign_col j rows' v'
  | _, _ => rows
  end.

(** [Z[:, j] = v].  numpy raises IndexError for a column out of range and
    ValueError when [v] can not be broadcast to the column: [v] must have
    one entry per row, or a single entry that is copied to every row. *)
Definition setitem_col (Z : ndarray) (j : nat) (v : list R)
  : outcome ndarray :=
  if negb (j <? ncols Z)%nat then Raise IndexError
  else if (length v =? nrows Z)%nat then
    Return {| shape := shape Z; data := assign_col j (data Z) v |}
  else match v with
       | [x] => Return {| shape := shape Z;
                          data := map (set_nth j x) (data Z) |}
       | _ => Raise ValueError
       end.

(** [A / c] and [A * c] for a scalar [c] *)
Definition div_scalar (A : ndarray) (c : R) : ndarray :=
  {| shape := shape A; data := map (map (fun x => x / c)) (data A) |}.

Definition mul_scalar (A : ndarray) (c : R) : ndarray :=
  {| shape := shape A; data := map (map (fun x => x * c)) (data A) |}.

(** [v / c] for a vector [v] and a scalar [c] *)
Definition div_vector (v : list R) (c : R) : list R :=
  map (fun x => x / c) v.

(** [A.T] *)
Definition transpose (A : ndarray) : ndarray :=
  {| shape := (ncols A, nrows A);
     data := map (col A) (seq 0 (ncols A)) |}.

(** The inner product of two vectors. *)
Fixpoint inner (x y : list R) : R :=
  match x, y with
  | a :: x', b :: y' => a * b + inner x' y'
  | _, _ => 0
  end.

(** [A.dot(B)]; ValueError when the shapes are not aligned. *)
Definition np_dot (A B : ndarray) : outcome ndarray :=
  if (ncols A =? nrows B)%nat then
    Return {| shape := (nrows A, ncols B);
              data := map (fun r => map (fun k => inner r (col B k))
                                        (seq 0 (ncols B)))
                          (data A) |}
  else Raise ValueError.

(** [np.cos(A)], [np.sin(A)] *)
Definition np_cos (A : ndarray) : ndarray :=
  {| shape := shape A; data := map (map cos) (data A) |}.

Definition np_sin (A : ndarray) : ndarray :=
  {| shape := shape A; data := map (map sin) (data A) |}.

Fixpoint zip_rows (a b : list (list R)) : list (list R) :=
  match a, b with
  | r :: a', s :: b' => (r ++ s) :: zip_rows a' b'
  | _, _ => []
  end.

(** [np.hstack((A, B))]; ValueError when the row counts differ. *)
Definition np_hstack (A B : ndarray) : outcome ndarray :=
  if (nrows A =? nrows B)%nat then
    Return {| shape := (nrows A, (ncols A + ncols B)%nat);
              data := zip_rows (data A) (data B) |}
  else Raise ValueError.

(** ** scipy.stats.rankdata *)

Definition Rltb (x y : R) : bool := if Rlt_dec x y then true else false.
Definition Rleb (x y : R) : bool := if Rle_dec x y then true else false.

(** How many entries of [a] are below [x], and how many are not above it. *)
Definition count_lt (x : R) (a : list R) : nat :=
  length (filter (fun y => Rltb y x) a).

Definition count_le (x : R) (a : list R) : nat :=
  length (filter (fun y => Rleb y x) a).

(** [stats.rankdata(a)] with the default method, 'average'.  scipy sorts
    [a] and returns [.5 * (count[dense] + count[dense - 1] + 1)], where for
    an entry x [count[dense - 1]] is the index in the sorted array of the
    first entry equal to x (the number of entries below x) and
    [count[dense]] the index of the first entry above x (the number of
    entries not above x). *)
Definition rankdata (a : list R) : list R :=
  map (fun x => 0.5 * (INR (count_le x a) + INR (count_lt x a) + 1)) a.

(** *** Average ranks, as the specification words them

    The entries are put in order; an entry receives the mean of the ranks
    (counted from 1) at which its value stands in that order. *)

Definition Reqb (x y : R) : bool := if Req_dec_T x y then true else false.

Definition count_eq (x : R) (a : list R) : nat :=
  length (filter (fun y => Reqb y x) a).

Fixpoint insert_sorted (x : R) (l : list R) : list R :=
  match l with
  | [] => [x]
  | y :: l' => if Rleb x y then x :: l else y :: insert_sorted x l'
  end.

Fixpoint sort (l : list R) : list R :=
  match l with
  | [] => []
  | x :: l' => insert_sorted x (sort l')
  end.

(** The ranks at which [x] stands in [s], whose first entry has rank [k]. *)
Fixpoint ranks_from (k : nat) (x : R) (s : list R) : list nat :=
  match s with
  | [] => []
  | y :: s' => if Reqb y x then k :: ranks_from (S k) x s'
               else ranks_from (S k) x s'
  end.

Definition sum_ranks (l : list nat) : R :=
  fold_right (fun k acc => INR k + acc) 0 l.

Definition mean_rank (l : list nat) : R := sum_ranks l / INR (length l).

Definition average_rank (a : list R) : list R :=
  map (fun x => mean_rank (ranks_from 1 x (sort a))) a.

(** The largest entry of a list (0 for the empty list). *)
Definition list_max (l : list R) : R :=
  match l with
  | [] => 0
  | x :: l' => fold_left Rmax l' x
  end.

(** The rows of the n x m array whose entry (i, k) is [f i k]. *)
Definition tabulate (n m : nat) (f : nat -> nat -> R) : list (list R) :=
  map (fun i => map (f i) (seq 0 m)) (seq 0 n).

(** ** Python numbers *)

(** [x / n] for a float [x] and an int [n]: ZeroDivisionError for n = 0. *)
Definition truediv (x : R) (n : Z) : outcome R :=
  if (n =? 0)%Z then Raise ZeroDivisionError else Return (x / IZR n).

(** ** The numpy generator

    numpy's legacy generator is a library of its own: a type of states, the
    state that seeding with an integer installs, and the draw of one
    standard normal, which also advances the state. *)

Record RandomState : Type := {
  rng_state : Type;
  seed_state : Z -> rng_state;
  standard_normal : rng_state -> R * rng_state
}.

(** A generator to run the model on: the state counts the draws made so
    far, and the draw made in state s is s. *)
Definition counting_generator : RandomState :=
  {| rng_state := nat;
     seed_state := Z.to_nat;
     standard_normal := fun s => (INR s, S s) |}.

(** ** Objects *)

Record RFFKGauss : Type := mk_RFFKGauss {
  sigma2 : R;
  n_features : Z;
  seed : Z
}.

Inductive object : Type :=
| Ndarray (a : ndarray)
| MarginalCDFMap
| RFFKGaussObj (o : RFFKGauss).

Definition ref : Type := nat.

Bind Scope nat_scope with ref.

(** ** Objects to run the model on *)

Definition example_X : ndarray :=
  {| shape := (3%nat, 2%nat); data := [[1; 7]; [1; 5]; [2; 5]] |}.

Definition example_map : RFFKGauss :=
  {| sigma2 := 1; n_features := 4; seed := 1 |}.

Definition example_heap : list object :=
  [Ndarray example_X; MarginalCDFMap;
   RFFKGaussObj example_map; RFFKGaussObj example_map].

(** An array whose only column has its largest value twice. *)
Definition tied_X : ndarray :=
  {| shape := (2%nat, 1%nat); data := [[1]; [1]] |}.

Definition tied_heap : list object := [Ndarray tied_X; MarginalCDFMap].

(** An instance whose [n_features] was assigned -2 after its construction:
    the draw of its [gen_features] raises inside the seed context. *)
Definition reassigned_map : RFFKGauss :=
  {| sigma2 := 1; n_features := -2; seed := 1 |}.

Definition reassigned_heap : list object :=
  [Ndarray example_X; RFFKGaussObj reassigned_map].

(** ** More objects to run the model on *)

(** [example_X] with 1 added to its first column and 2 to its second. *)
Definition shifted_X : ndarray :=
  {| shape := (3%nat, 2%nat); data := [[2; 9]; [2; 7]; [3; 7]] |}.

(** An array whose second row is the first row of [example_X]. *)
Definition other_X : ndarray :=
  {| shape := (2%nat, 2%nat); data := [[0; 0]; [1; 7]] |}.

(** An instance whose [n_features] was assigned 3 after its construction. *)
Definition odd_map : RFFKGauss :=
  {| sigma2 := 1; n_features := 3; seed := 1 |}.

(** The rows of [example_X] in another order. *)
Definition reordered_X : ndarray :=
  {| shape := (3%nat, 2%nat); data := [[2; 5]; [1; 7]; [1; 5]] |}.

(** An instance whose [n_features] was assigned 0 after its construction. *)
Definition zero_map : RFFKGauss :=
  {| sigma2 := 1; n_features := 0; seed := 1 |}.

Definition more_heap : list object :=
  [Ndarray example_X; MarginalCDFMap; RFFKGaussObj example_map;
   Ndarray shifted_X; Ndarray other_X;
   RFFKGaussObj odd_map; Ndarray reordered_X; RFFKGaussObj zero_map].

Section FeatureMaps.

Variable G : RandomState.

(** The world of a call: the process-wide state of [np.random] and the
    objects that exist. *)
Record World : Type := mk_World {
  np_random : rng_state G;
  heap : list object
}.

(** ** Computations *)

Definition M (A : Type) : Type := World -> outcome A * World.

Definition ret {A} (a : A) : M A := fun w => (Return a, w).

Definition raise {A} (e : exn) : M A := fun w => (Raise e, w).

Definition bind {A B} (c : M A) (k : A -> M B) : M B :=
  fun w => match c w with
           | (Return a, w') => k a w'
           | (Raise e, w') => (Raise e, w')
           end.

Definition lift {A} (r : outcome A) : M A := fun w => (r, w).

Notation "x <- c ;; k" := (bind c (fun x => k))
  (at level 61, c at next level, right associativity).

(** [for j in js: acc = body(j, acc)] *)
Fixpoint for_each {S} (js : list nat) (body : nat -> S -> M S) (acc : S)
  : M S :=
  match js with
  | [] => ret acc
  | j :: js' => acc' <- body j acc ;; for_each js' body acc'
  end.

(** [with ctx: body]: [exit] runs on every way out of [body], and an
    exception of [body] goes on after it. *)
Definition with_ {C A} (enter : M C) (exit : C -> M unit) (body : M A)
  : M A :=
  fun w => match enter w with
           | (Raise e, w1) => (Raise e, w1)
           | (Return c, w1) =>
               let (r, w2) := body w1 in
               match exit c w2 with
               | (Return _, w3) => (r, w3)
               | (Raise e, w3) => (Raise e, w3)
               end
           end.

(** A computation whose outcome is decided by the heap alone and which
    leaves the world as it found it, whether it returns or raises. *)
Definition reads_heap_only {A} (c : M A) : Prop :=
  forall w, exists r, forall w', heap w' = heap w -> c w' = (r, w').

(** A computation that leaves the heap as it found it. *)
Definition preserves_heap {A} (c : M A) : Prop :=
  forall w, heap (snd (c w)) = heap w.

(** *** Reading the heap *)

(** The array a name is bound to; an object of another class has none of
    the attributes of an array. *)
Definition load_ndarray (X : ref) : M ndarray :=
  fun w => match nth_error (heap w) X with
           | Some (Ndarray a) => (Return a, w)
           | _ => (Raise AttributeError, w)
           end.

(** [X[:, j]] *)
Definition getitem_col (X : ref) (j : nat) : M (list R) :=
  A <- load_ndarray X ;;
  if (j <? ncols A)%nat then ret (col A j) else raise IndexError.

(** [self.sigma2], [self.n_features], [self.seed] *)
Definition getattr {T} (self : ref) (field : RFFKGauss -> T) : M T :=
  fun w => match nth_error (heap w) self with
           | Some (RFFKGaussObj o) => (Return (field o), w)
           | _ => (Raise AttributeError, w)
           end.

(** *** The process-wide generator *)

Definition np_random_get_state : M (rng_state G) :=
  fun w => (Return (np_random w), w).

Definition np_random_set_state (s : rng_state G) : M unit :=
  fun w => (Return tt, {| np_random := s; heap := heap w |}).

Definition np_random_seed (z : Z) : M unit :=
  fun w => (Return tt, {| np_random := seed_state G z; heap := heap w |}).

Fixpoint draw_row (d : nat) (s : rng_state G) : list R * rng_state G :=
  match d with
  | O => ([], s)
  | S d' => let (x, s1) := standard_normal G s in
            let (xs, s2) := draw_row d' s1 in
            (x :: xs, s2)
  end.

Fixpoint draw_rows (m d : nat) (s : rng_state G)
  : list (list R) * rng_state G :=
  match m with
  | O => ([], s)
  | S m' => let (r, s1) := draw_row d s in
            let (rs, s2) := draw_rows m' d s1 in
            (r :: rs, s2)
  end.

(** [np.random.randn(m, d)]: m * d draws, filled in row by row; ValueError
    for a negative dimension. *)
Definition np_random_randn (m : Z) (d : nat) : M ndarray :=
  fun w => if (m <? 0)%Z then (Raise ValueError, w)
           else let (rows, s) := draw_rows (Z.to_nat m) d (np_random w) in
                (Return {| shape := (Z.to_nat m, d); data := rows |},
                 {| np_random := s; heap := heap w |}).

(** Modelled from the spec: [util.NumpySeedContext], the context manager of
    the module [util], which is not part of the sources.  Entering saves the
    state of the process-wide generator and seeds it; leaving puts the saved
    state back. *)
Definition NumpySeedContext_enter (seed : Z) : M (rng_state G) :=
  saved <- np_random_get_state ;;
  _ <- np_random_seed seed ;;
  ret saved.

Definition NumpySeedContext_exit (saved : rng_state G) : M unit :=
  np_random_set_state saved.

Definition with_NumpySeedContext {A} (seed : Z) (body : M A) : M A :=
  with_ (NumpySeedContext_enter seed) NumpySeedContext_exit body.

(** ** class MarginalCDFMap *)

Definition MarginalCDFMap_gen_features (self X : ref) : M ndarray :=
  A <- load_ndarray X ;;
  let '(n, d) := shape A in
  Z <- for_each (seq 0 d)
         (fun j Z =>
            Xj <- getitem_col X j ;;
            lift (setitem_col Z j (div_vector (rankdata Xj) (INR n))))
         (np_zeros n d) ;;
  ret Z.

(** [num_features(self, X)]: the argument has no default. *)
Definition MarginalCDFMap_num_features (self : ref) (X : option ref) : M Z :=
  match X with
  | None => raise TypeError
  | Some X => A <- load_ndarray X ;; ret (Z.of_nat (snd (shape A)))
  end.

(** ** class RFFKGauss *)

(** [__init__(self, sigma2, n_features, seed=1)] *)
Definition RFFKGauss_init (sigma2 : R) (n_features : Z) (seed : option Z)
  : outcome RFFKGauss :=
  if Rle_dec sigma2 0 then Raise ValueError
  else if negb ((0 <? n_features)%Z && (n_features mod 2 =? 0)%Z)
       then Raise ValueError
  else Return {| sigma2 := sigma2;
                 n_features := n_features;
                 seed := match seed with Some s => s | None => 1%Z end |}.

Definition RFFKGauss_gen_features (self X : ref) : M ndarray :=
  sd <- getattr self seed ;;
  Z <- with_NumpySeedContext sd (
         A <- load_ndarray X ;;
         let '(n, d) := shape A in
         nf <- getattr self n_features ;;
         let draws := (nf / 2)%Z in
         N <- np_random_randn draws d ;;
         s2 <- getattr self sigma2 ;;
         let W := div_scalar N (sqrt s2) in
         A' <- load_ndarray X ;;
         XWT <- lift (np_dot A' (transpose W)) ;;
         let Z1 := np_cos XWT in
         let Z2 := np_sin XWT in
         H <- lift (np_hstack Z1 Z2) ;;
         nf' <- getattr self n_features ;;
         c <- lift (truediv 2 nf') ;;
         ret (mul_scalar H (sqrt c))) ;;
  ret Z.

(** [num_features(self, X=None)] *)
Definition RFFKGauss_num_features (self : ref) (X : option ref) : M Z :=
  getattr self n_features.

(** ** class FeatureMap

    The two methods are abstract: a call goes to the method of the class of
    [self]. *)

Definition gen_features (self X : ref) : M ndarray :=
  fun w => match nth_error (heap w) self with
           | Some MarginalCDFMap => MarginalCDFMap_gen_features self X w
           | Some (RFFKGaussObj _) => RFFKGauss_gen_features self X w
           | _ => (Raise AttributeError, w)
           end.

Definition num_features (self : ref) (X : option ref) : M Z :=
  fun w => match nth_error (heap w) self with
           | Some MarginalCDFMap => MarginalCDFMap_num_features self X w
           | Some (RFFKGaussObj _) => RFFKGauss_num_features self X w
           | _ => (Raise AttributeError, w)
           end.

(** [__call__(self, X)] *)
Definition FeatureMap_call (self X : ref) : M ndarray :=
  gen_features self X.

(** ** The random Fourier features, as the specification words them *)

(** The state of the generator after [t] draws, and the draw made then. *)
Fixpoint advance (t : nat) (s : rng_state G) : rng_state G :=
  match t with
  | O => s
  | S t' => advance t' (snd (standard_normal G s))
  end.

Definition nth_draw (s : rng_state G) (t : nat) : R :=
  fst (standard_normal G (advance t s)).

(** The sum of [f 0], ..., [f (d - 1)]. *)
Fixpoint sum_upto (d : nat) (f : nat -> R) : R :=
  match d with
  | O => 0
  | S d' => sum_upto d' f + f d'
  end.

(** W: entry (k, j) of a (n_features // 2) x d array of draws from the
    stream seeded with [seed], scaled by 1 / sqrt(sigma2). *)
Definition spec_W (o : RFFKGauss) (d k j : nat) : R :=
  nth_draw (seed_state G (seed o)) (k * d + j) * (1 / sqrt (sigma2 o)).

(** P = X . W^T *)
Definition spec_P (o : RFFKGauss) (A : ndarray) (i k : nat) : R :=
  sum_upto (ncols A) (fun j => entry A i j * spec_W o (ncols A) k j).

(** [cos(P) | sin(P)], scaled by sqrt(2 / n_features). *)
Definition spec_Z (o : RFFKGauss) (A : ndarray) (i k : nat) : R :=
  let draws := Z.to_nat (n_features o / 2) in
  sqrt (2 / IZR (n_features o)) *
  (if (k <? draws)%nat then cos (spec_P o A i k)
   else sin (spec_P o A i (k - draws))).

Definition spec_features (o : RFFKGauss) (A : ndarray) : ndarray :=
  {| shape := (nrows A, Z.to_nat (n_features o));
     data := tabulate (nrows A) (Z.to_nat (n_features o)) (spec_Z o A) |}.

(** * Properties *)

(** ** Comparisons *)

Lemma Rltb_true (x y : R) : Rltb x y = true <-> x < y.
Proof.
  unfold Rltb. destruct (Rlt_dec x y); split; intros;
    try discriminate; tauto.
Qed.

Lemma Rleb_true (x y : R) : Rleb x y = true <-> x <= y.
Proof.
  unfold Rleb. destruct (Rle_dec x y); split; intros;
    try discriminate; tauto.
Qed.

Lemma Reqb_true (x y : R) : Reqb x y = true <-> x = y.
Proof.
  unfold Reqb. destruct (Req_dec_T x y); split; intros;
    try discriminate; tauto.
Qed.

Lemma Rltb_false (x y : R) : Rltb x y = false <-> y <= x.
Proof.
  unfold Rltb. destruct (Rlt_dec x y); split; intros;
    try discriminate; try reflexivity; lra.
Qed.

Lemma Rleb_false (x y : R) : Rleb x y = false <-> y < x.
Proof.
  unfold Rleb. destruct (Rle_dec x y); split; intros;
    try discriminate; try reflexivity; lra.
Qed.

Lemma Reqb_false (x y : R) : Reqb x y = false <-> x <> y.
Proof.
  unfold Reqb. destruct (Req_dec_T x y); split; intros; try discriminate; tauto.
Qed.

(** Decides the comparisons of a goal between numerals. *)
Ltac compare_reals :=
  repeat match goal with
    | |- context [Rltb ?x ?y] =>
        let H := fresh in
        destruct (Rltb x y) eqn:H;
        [apply Rltb_true in H | apply Rltb_false in H]; try lra
    | |- context [Rleb ?x ?y] =>
        let H := fresh in
        destruct (Rleb x y) eqn:H;
        [apply Rleb_true in H | apply Rleb_false in H]; try lra
    | |- context [Reqb ?x ?y] =>
        let H := fresh in
        destruct (Reqb x y) eqn:H;
        [apply Reqb_true in H | apply Reqb_false in H]; try lra
    end.

(** ** Counting *)

Lemma count_lt_cons (x y : R) (a : list R) :
  count_lt x (y :: a) = ((if Rltb y x then 1 else 0) + count_lt x a)%nat.
Proof. unfold count_lt. simpl. destruct (Rltb y x); reflexivity. Qed.

Lemma count_le_cons (x y : R) (a : list R) :
  count_le x (y :: a) = ((if Rleb y x then 1 else 0) + count_le x a)%nat.
Proof. unfold count_le. simpl. destruct (Rleb y x); reflexivity. Qed.

Lemma count_eq_cons (x y : R) (a : list R) :
  count_eq x (y :: a) = ((if Reqb y x then 1 else 0) + count_eq x a)%nat.
Proof. unfold count_eq. simpl. destruct (Reqb y x); reflexivity. Qed.

Lemma count_le_split (x : R) (a : list R) :
  count_le x a = (count_lt x a + count_eq x a)%nat.
Proof.
  induction a as [|y a IH]; [reflexivity|].
  rewrite count_le_cons, count_lt_cons, count_eq_cons, IH.
  compare_reals; lia.
Qed.

Lemma count_le_length (x : R) (a : list R) : (count_le x a <= length a)%nat.
Proof. unfold count_le. apply filter_length_le. Qed.

Lemma count_eq_In (x : R) (a : list R) : In x a -> (1 <= count_eq x a)%nat.
Proof.
  induction a as [|y a IH]; simpl; [tauto|].
  rewrite count_eq_cons. intros [->|H].
  - compare_reals. lia.
  - specialize (IH H). lia.
Qed.

Lemma count_lt_mono (x y : R) (a : list R) :
  x <= y -> (count_lt x a <= count_lt y a)%nat.
Proof.
  intros Hxy. induction a as [|z a IH]; [reflexivity|].
  rewrite !count_lt_cons. compare_reals; lia.
Qed.

Lemma count_le_mono (x y : R) (a : list R) :
  x <= y -> (count_le x a <= count_le y a)%nat.
Proof.
  intros Hxy. induction a as [|z a IH]; [reflexivity|].
  rewrite !count_le_cons. compare_reals; lia.
Qed.

Lemma count_lt_perm (x : R) (a b : list R) :
  Permutation a b -> count_lt x a = count_lt x b.
Proof.
  induction 1; rewrite ?count_lt_cons; lia.
Qed.

Lemma count_eq_perm (x : R) (a b : list R) :
  Permutation a b -> count_eq x a = count_eq x b.
Proof.
  induction 1; rewrite ?count_eq_cons; lia.
Qed.

(** ** Sorting *)

Lemma insert_sorted_perm (x : R) (l : list R) :
  Permutation (x :: l) (insert_sorted x l).
Proof.
  induction l as [|y l IH]; simpl; [reflexivity|].
  destruct (Rleb x y); [reflexivity|].
  rewrite perm_swap. now apply perm_skip.
Qed.

Lemma sort_perm (l : list R) : Permutation l (sort l).
Proof.
  induction l as [|x l IH]; simpl; [constructor|].
  rewrite <- insert_sorted_perm. now apply perm_skip.
Qed.

Lemma insert_sorted_sorted (x : R) (l : list R) :
  StronglySorted Rle l -> StronglySorted Rle (insert_sorted x l).
Proof.
  induction 1 as [|y l Hl IH Hy]; simpl.
  - repeat constructor.
  - destruct (Rleb x y) eqn:E.
    + apply Rleb_true in E. constructor; [now constructor|].
      constructor; [assumption|].
      eapply Forall_impl; [|exact Hy]. simpl. intros; lra.
    + apply Rleb_false in E. constructor; [assumption|].
      eapply Permutation_Forall; [apply insert_sorted_perm|].
      constructor; [lra | assumption].
Qed.

Lemma sort_sorted (l : list R) : StronglySorted Rle (sort l).
Proof.
  induction l as [|x l IH]; simpl; [constructor|].
  now apply insert_sorted_sorted.
Qed.

(** ** The ranks a value occupies in a sorted list *)

Lemma count_lt_above (x : R) (s : list R) :
  Forall (fun y => x <= y) s -> count_lt x s = 0%nat.
Proof.
  induction 1 as [|y s Hy _ IH]; [reflexivity|].
  rewrite count_lt_cons, IH. compare_reals. reflexivity.
Qed.

Lemma count_eq_above (x : R) (s : list R) :
  Forall (fun y => x < y) s -> count_eq x s = 0%nat.
Proof.
  induction 1 as [|y s Hy _ IH]; [reflexivity|].
  rewrite count_eq_cons, IH. compare_reals. reflexivity.
Qed.

Lemma ranks_from_above (k : nat) (x : R) (s : list R) :
  Forall (fun y => x < y) s -> ranks_from k x s = [].
Proof.
  intros H. revert k. induction H as [|y s Hy _ IH]; intros k; [reflexivity|].
  simpl. rewrite IH. compare_reals. reflexivity.
Qed.

(** In a sorted list the entries equal to [x] stand side by side, right
    after the entries below [x]. *)
Lemma ranks_from_sorted (k : nat) (x : R) (s : list R) :
  StronglySorted Rle s ->
  ranks_from k x s = seq (k + count_lt x s) (count_eq x s).
Proof.
  intros H. revert k.
  induction H as [|y s Hs IH Hy]; intros k; [reflexivity|].
  simpl. rewrite count_lt_cons, count_eq_cons.
  destruct (Rlt_dec y x) as [Hlt|Hge].
  - rewrite IH. compare_reals. simpl. f_equal. lia.
  - destruct (Req_dec_T y x) as [->|Hne].
    + rewrite IH, (count_lt_above x s) by assumption.
      compare_reals. rewrite !Nat.add_0_r. reflexivity.
    + assert (Hs' : Forall (fun z => x < z) s).
      { eapply Forall_impl; [|exact Hy]. simpl. intros; lra. }
      rewrite ranks_from_above, count_eq_above by assumption.
      compare_reals. reflexivity.
Qed.

Lemma sum_ranks_seq (a k : nat) :
  sum_ranks (seq a k) = INR k * INR a + INR k * (INR k - 1) / 2.
Proof.
  revert a. induction k as [|k IH]; intros a.
  - simpl. lra.
  - change (seq a (S k)) with (a :: seq (S a) k).
    change (sum_ranks (a :: seq (S a) k))
      with (INR a + sum_ranks (seq (S a) k)).
    rewrite IH, !S_INR. lra.
Qed.

(** The mean of the ranks lt + 1, ..., lt + k. *)
Lemma mean_rank_seq (lt k : nat) :
  (1 <= k)%nat ->
  mean_rank (seq (1 + lt) k) = 0.5 * (INR (lt + k) + INR lt + 1).
Proof.
  intros Hk. unfold mean_rank.
  rewrite sum_ranks_seq, length_seq, !plus_INR.
  assert (0 < INR k) by (apply lt_0_INR; lia).
  change (INR 1) with 1. replace 0.5 with (1 / 2) by lra. field. lra.
Qed.

(** scipy's formula is the mean of the ranks an entry and its ties occupy. *)
Lemma rankdata_average_rank (a : list R) : rankdata a = average_rank a.
Proof.
  unfold rankdata, average_rank. apply map_ext_in. intros x Hx.
  rewrite ranks_from_sorted by apply sort_sorted.
  rewrite <- (count_lt_perm x _ _ (sort_perm a)).
  rewrite <- (count_eq_perm x _ _ (sort_perm a)).
  rewrite mean_rank_seq by now apply count_eq_In.
  now rewrite count_le_split.
Qed.

(** ** Assigning a column *)

Lemma set_nth_length (j : nat) (v : R) (r : list R) :
  length (set_nth j v r) = length r.
Proof.
  revert j. induction r as [|x r IH]; intros [|j]; simpl; auto.
Qed.

Lemma nth_set_nth_same (j : nat) (v : R) (r : list R) :
  (j < length r)%nat -> nth j (set_nth j v r) 0 = v.
Proof.
  revert j. induction r as [|x r IH]; intros [|j]; simpl; intros H;
    try lia; auto.
  apply IH. lia.
Qed.

Lemma nth_set_nth_other (j j' : nat) (v : R) (r : list R) :
  j' <> j -> nth j' (set_nth j v r) 0 = nth j' r 0.
Proof.
  revert j j'. induction r as [|x r IH]; intros [|j] [|j'] H; simpl;
    try reflexivity; try congruence.
  apply IH. congruence.
Qed.

Lemma assign_col_length (j : nat) (rows : list (list R)) (v : list R) :
  length (assign_col j rows v) = length rows.
Proof.
  revert v. induction rows as [|r rows IH]; intros [|x v]; simpl; auto.
Qed.

Lemma assign_col_row_length (j d : nat) (rows : list (list R)) (v : list R) :
  Forall (fun r => length r = d) rows ->
  Forall (fun r => length r = d) (assign_col j rows v).
Proof.
  intros H. revert v. induction H as [|r rows Hr Hrows IH]; intros [|x v];
    simpl; constructor; auto.
  now rewrite set_nth_length.
Qed.

Lemma assign_col_same (j d : nat) (rows : list (list R)) (v : list R) :
  length v = length rows ->
  Forall (fun r => length r = d) rows ->
  (j < d)%nat ->
  map (fun r => nth j r 0) (assign_col j rows v) = v.
Proof.
  intros Hv H Hj. revert v Hv.
  induction H as [|r rows Hr _ IH]; intros [|x v] Hv; simpl in *;
    try discriminate; [reflexivity|].
  rewrite nth_set_nth_same by lia. f_equal. apply IH. lia.
Qed.

Lemma assign_col_other (j j' : nat) (rows : list (list R)) (v : list R) :
  j' <> j ->
  map (fun r => nth j' r 0) (assign_col j rows v)
  = map (fun r => nth j' r 0) rows.
Proof.
  intros Hj. revert v.
  induction rows as [|r rows IH]; intros [|x v]; simpl; try reflexivity.
  now rewrite nth_set_nth_other, IH.
Qed.

Lemma col_length (A : ndarray) (j : nat) : length (col A j) = length (data A).
Proof. unfold col. apply length_map. Qed.

Lemma rankdata_length (a : list R) : length (rankdata a) = length a.
Proof. unfold rankdata. apply length_map. Qed.

Lemma np_zeros_wf (n d : nat) : wf_ndarray (np_zeros n d).
Proof.
  split; simpl.
  - apply repeat_length.
  - apply Forall_forall. intros r Hr. apply repeat_spec in Hr. subst r.
    apply repeat_length.
Qed.

(** [Z[:, j] = v] for a column in range and [v] with one entry per row. *)
Lemma setitem_col_ok (Z : ndarray) (j : nat) (v : list R) :
  wf_ndarray Z -> (j < ncols Z)%nat -> length v = nrows Z ->
  exists Z', setitem_col Z j v = Return Z' /\
             wf_ndarray Z' /\ shape Z' = shape Z /\
             col Z' j = v /\
             forall j', j' <> j -> col Z' j' = col Z j'.
Proof.
  intros [Hn Hd] Hj Hv. unfold setitem_col.
  apply Nat.ltb_lt in Hj as Hj'. rewrite Hj'. simpl.
  rewrite Hv, Nat.eqb_refl.
  eexists. split; [reflexivity|]. unfold wf_ndarray, nrows, ncols, col. simpl.
  repeat split.
  - now rewrite assign_col_length.
  - now apply assign_col_row_length.
  - eapply assign_col_same; eauto. now rewrite Hn.
  - intros j' Hne. now apply assign_col_other.
Qed.

(** ** Running computations *)

Lemma bind_Return {A B} (c : M A) (k : A -> M B) (w w' : World) (a : A) :
  c w = (Return a, w') -> bind c k w = k a w'.
Proof. intros H. unfold bind. now rewrite H. Qed.

(** ** MarginalCDFMap.gen_features *)

Lemma getitem_col_run (w : World) (X : ref) (A : ndarray) (j : nat) :
  nth_error (heap w) X = Some (Ndarray A) -> (j < ncols A)%nat ->
  getitem_col X j w = (Return (col A j), w).
Proof.
  intros HX Hj. unfold getitem_col, bind, load_ndarray. rewrite HX.
  apply Nat.ltb_lt in Hj. now rewrite Hj.
Qed.

Lemma MarginalCDFMap_loop (w : World) (X : ref) (A : ndarray) :
  nth_error (heap w) X = Some (Ndarray A) -> wf_ndarray A ->
  forall (len a : nat) (Z0 : ndarray),
    (a + len <= ncols A)%nat -> wf_ndarray Z0 -> shape Z0 = shape A ->
    exists Z,
      for_each (seq a len)
        (fun j Z =>
           Xj <- getitem_col X j ;;
           lift (setitem_col Z j
                   (div_vector (rankdata Xj) (INR (nrows A))))) Z0 w
      = (Return Z, w) /\
      wf_ndarray Z /\ shape Z = shape A /\
      (forall j, (a <= j < a + len)%nat ->
                 col Z j = div_vector (rankdata (col A j)) (INR (nrows A))) /\
      (forall j, ~ (a <= j < a + len)%nat -> col Z j = col Z0 j).
Proof.
  intros HX HA. induction len as [|len IH]; intros a Z0 Hlen HZ0 Hsh.
  - exists Z0. simpl. unfold ret.
    split; [reflexivity|]. split; [assumption|]. split; [assumption|].
    split; [intros; lia | reflexivity].
  - destruct (setitem_col_ok Z0 a
                (div_vector (rankdata (col A a)) (INR (nrows A))))
      as (Z1 & Hset & HZ1 & Hsh1 & Hsame & Hother); auto.
    { unfold ncols. rewrite Hsh. fold (ncols A). lia. }
    { unfold div_vector. rewrite length_map, rankdata_length, col_length.
      unfold nrows. rewrite Hsh. apply HA. }
    destruct (IH (S a) Z1) as (Z & Hrun & HZ & HshZ & Hin & Hout); auto;
      [lia | congruence |].
    exists Z.
    split; [|split; [assumption|split; [assumption|split]]].
    + simpl. unfold bind at 1. unfold bind at 1.
      rewrite (getitem_col_run w X A a) by (auto; lia).
      unfold lift. rewrite Hset. exact Hrun.
    + intros j Hj. destruct (Nat.eq_dec j a) as [->|Hne].
      * rewrite Hout by lia. exact Hsame.
      * apply Hin. lia.
    + intros j Hj. rewrite Hout by lia. apply Hother. lia.
Qed.

Lemma MarginalCDFMap_gen_features_run (w : World) (self X : ref)
    (A : ndarray) :
  nth_error (heap w) X = Some (Ndarray A) -> wf_ndarray A ->
  exists Z,
    MarginalCDFMap_gen_features self X w = (Return Z, w) /\
    wf_ndarray Z /\ shape Z = shape A /\
    forall j, (j < ncols A)%nat ->
              col Z j = div_vector (rankdata (col A j)) (INR (nrows A)).
Proof.
  intros HX HA.
  destruct (MarginalCDFMap_loop w X A HX HA (ncols A) 0
              (np_zeros (nrows A) (ncols A)))
    as (Z & Hrun & HZ & Hsh & Hin & _).
  - lia.
  - apply np_zeros_wf.
  - simpl. unfold nrows, ncols. now destruct (shape A).
  - exists Z.
    split; [|split; [assumption|split; [assumption|intros; apply Hin; lia]]].
    unfold MarginalCDFMap_gen_features, bind at 1, load_ndarray.
    rewrite HX. unfold nrows, ncols in Hrun.
    destruct (shape A) as [n d]. simpl in Hrun.
    cbv beta iota. now rewrite (bind_Return _ _ _ _ _ Hrun).
Qed.

(** ** The seed context *)

Lemma load_ndarray_run (w : World) (X : ref) (A : ndarray) :
  nth_error (heap w) X = Some (Ndarray A) ->
  load_ndarray X w = (Return A, w).
Proof. intros H. unfold load_ndarray. now rewrite H. Qed.

Lemma getattr_run {T} (w : World) (self : ref) (o : RFFKGauss)
    (field : RFFKGauss -> T) :
  nth_error (heap w) self = Some (RFFKGaussObj o) ->
  getattr self field w = (Return (field o), w).
Proof. intros H. unfold getattr. now rewrite H. Qed.

(** Whatever the body does, and whether it returns or raises, the block
    ends in the state of the generator it was entered in, with the outcome
    of the body. *)
Lemma with_NumpySeedContext_run {A} (sd : Z) (body : M A) (w : World) :
  let w1 := {| np_random := seed_state G sd; heap := heap w |} in
  with_NumpySeedContext sd body w
  = (fst (body w1),
     {| np_random := np_random w; heap := heap (snd (body w1)) |}).
Proof.
  unfold with_NumpySeedContext, with_, NumpySeedContext_enter,
    NumpySeedContext_exit, bind, np_random_get_state, np_random_seed,
    np_random_set_state, ret.
  simpl. destruct (body _) as [r w2]. reflexivity.
Qed.

Lemma np_random_randn_run (m : Z) (d : nat) (w : World) :
  (0 <= m)%Z ->
  np_random_randn m d w
  = (Return {| shape := (Z.to_nat m, d);
               data := fst (draw_rows (Z.to_nat m) d (np_random w)) |},
     {| np_random := snd (draw_rows (Z.to_nat m) d (np_random w));
        heap := heap w |}).
Proof.
  intros Hm. unfold np_random_randn.
  apply Z.ltb_ge in Hm. rewrite Hm.
  now destruct (draw_rows _ _ _).
Qed.

(** ** Arrays given entry by entry *)

Lemma tabulate_length (n m : nat) (f : nat -> nat -> R) :
  length (tabulate n m f) = n.
Proof. unfold tabulate. now rewrite length_map, length_seq. Qed.

Lemma tabulate_row_length (n m : nat) (f : nat -> nat -> R) :
  Forall (fun r => length r = m) (tabulate n m f).
Proof.
  unfold tabulate. apply Forall_forall. intros r Hr.
  apply in_map_iff in Hr as (i & <- & _).
  now rewrite length_map, length_seq.
Qed.

Lemma tabulate_ext (n m : nat) (f g : nat -> nat -> R) :
  (forall i k, (i < n)%nat -> (k < m)%nat -> f i k = g i k) ->
  tabulate n m f = tabulate n m g.
Proof.
  intros H. unfold tabulate. apply map_ext_in. intros i Hi.
  apply map_ext_in. intros k Hk.
  apply in_seq in Hi, Hk. apply H; lia.
Qed.

Lemma nth_map_seq {T} (f : nat -> T) (a n i : nat) (d : T) :
  (i < n)%nat -> nth i (map f (seq a n)) d = f (a + i)%nat.
Proof.
  intros Hi.
  rewrite (nth_indep _ d (f 0%nat)) by now rewrite length_map, length_seq.
  now rewrite map_nth, seq_nth.
Qed.

Lemma tabulate_nth (n m : nat) (f : nat -> nat -> R) (i k : nat) :
  (i < n)%nat -> (k < m)%nat ->
  nth k (nth i (tabulate n m f) []) 0 = f i k.
Proof.
  intros Hi Hk. unfold tabulate.
  rewrite nth_map_seq by assumption. now rewrite nth_map_seq.
Qed.

Lemma list_as_map_nth {T} (l : list T) (d : T) :
  l = map (fun i => nth i l d) (seq 0 (length l)).
Proof.
  induction l as [|x l IH]; [reflexivity|].
  simpl. f_equal. rewrite <- seq_shift, map_map. exact IH.
Qed.

(** A well-formed array is the table of its entries. *)
Lemma wf_tabulate (A : ndarray) :
  wf_ndarray A -> data A = tabulate (nrows A) (ncols A) (entry A).
Proof.
  intros [Hn Hd]. unfold tabulate, entry.
  rewrite (list_as_map_nth (data A) []) at 1. rewrite Hn.
  apply map_ext_in. intros i Hi. apply in_seq in Hi.
  assert (Hr : length (nth i (data A) []) = ncols A).
  { rewrite Forall_forall in Hd. apply Hd, nth_In. lia. }
  rewrite (list_as_map_nth (nth i (data A) []) 0) at 1. now rewrite Hr.
Qed.

Lemma map_tabulate (h : R -> R) (n m : nat) (f : nat -> nat -> R) :
  map (map h) (tabulate n m f) = tabulate n m (fun i k => h (f i k)).
Proof.
  unfold tabulate. rewrite map_map. apply map_ext. intros i.
  now rewrite map_map.
Qed.

Lemma col_tabulate (n m : nat) (f : nat -> nat -> R) (k : nat) :
  (k < m)%nat ->
  map (fun r => nth k r 0) (tabulate n m f) = map (fun i => f i k) (seq 0 n).
Proof.
  intros Hk. unfold tabulate. rewrite map_map. apply map_ext. intros i.
  now rewrite nth_map_seq.
Qed.

Lemma map_seq_offset {T} (h : nat -> T) (m a n : nat) :
  map h (seq (m + a) n) = map (fun k => h (m + k)%nat) (seq a n).
Proof.
  revert a. induction n as [|n IH]; intros a; simpl; [reflexivity|].
  f_equal. rewrite plus_n_Sm. apply IH.
Qed.

Lemma zip_rows_map_seq (f g : nat -> list R) (a n : nat) :
  zip_rows (map f (seq a n)) (map g (seq a n))
  = map (fun i => f i ++ g i) (seq a n).
Proof.
  revert a. induction n as [|n IH]; intros a; simpl; [reflexivity|].
  now rewrite IH.
Qed.

Lemma zip_rows_tabulate (n m m' : nat) (f g : nat -> nat -> R) :
  zip_rows (tabulate n m f) (tabulate n m' g)
  = tabulate n (m + m')
      (fun i k => if (k <? m)%nat then f i k else g i (k - m)%nat).
Proof.
  unfold tabulate. rewrite zip_rows_map_seq. apply map_ext. intros i.
  rewrite seq_app, map_app. f_equal.
  - apply map_ext_in. intros k Hk. apply in_seq in Hk.
    destruct (Nat.ltb_spec k m); [reflexivity | lia].
  - simpl. rewrite <- (Nat.add_0_r m) at 1. rewrite map_seq_offset.
    apply map_ext_in. intros k Hk.
    destruct (Nat.ltb_spec (m + k) m); [lia|]. f_equal. lia.
Qed.

(** ** Sums and inner products *)

Lemma sum_upto_ext (d : nat) (f g : nat -> R) :
  (forall j, (j < d)%nat -> f j = g j) -> sum_upto d f = sum_upto d g.
Proof.
  induction d as [|d IH]; intros H; simpl; [reflexivity|].
  rewrite IH, H by (intros; auto). reflexivity.
Qed.

Lemma sum_upto_shift (d : nat) (f : nat -> R) :
  sum_upto (S d) f = f 0%nat + sum_upto d (fun j => f (S j)).
Proof.
  induction d as [|d IH]; [simpl; lra|].
  change (sum_upto (S (S d)) f) with (sum_upto (S d) f + f (S d)).
  rewrite IH. simpl. lra.
Qed.

Lemma inner_map_seq (f g : nat -> R) (a d : nat) :
  inner (map f (seq a d)) (map g (seq a d))
  = sum_upto d (fun j => f (a + j)%nat * g (a + j)%nat).
Proof.
  revert a. induction d as [|d IH]; intros a; [reflexivity|].
  rewrite sum_upto_shift. simpl map. simpl inner.
  rewrite IH, Nat.add_0_r. f_equal.
  apply sum_upto_ext. intros j _.
  now replace (S a + j)%nat with (a + S j)%nat by lia.
Qed.

(** ** The stream of draws *)

Lemma advance_add (a b : nat) (s : rng_state G) :
  advance (a + b) s = advance b (advance a s).
Proof.
  revert s. induction a as [|a IH]; intros s; simpl; [reflexivity|].
  apply IH.
Qed.

Lemma nth_draw_advance (a t : nat) (s : rng_state G) :
  nth_draw (advance a s) t = nth_draw s (a + t).
Proof. unfold nth_draw. now rewrite advance_add. Qed.

Lemma draw_row_spec (d : nat) (s : rng_state G) :
  draw_row d s = (map (nth_draw s) (seq 0 d), advance d s).
Proof.
  revert s. induction d as [|d IH]; intros s; simpl; [reflexivity|].
  destruct (standard_normal G s) as [x s1] eqn:E.
  rewrite IH. simpl snd. f_equal.
  f_equal; [unfold nth_draw; simpl; now rewrite E|].
  rewrite <- seq_shift, map_map. apply map_ext. intros t.
  unfold nth_draw. simpl. now rewrite E.
Qed.

(** [np.random.randn(m, d)] is the table of the first m * d draws. *)
Lemma draw_rows_spec (m d : nat) (s : rng_state G) :
  draw_rows m d s
  = (tabulate m d (fun k j => nth_draw s (k * d + j)), advance (m * d) s).
Proof.
  revert s. induction m as [|m IH]; intros s; [reflexivity|].
  simpl draw_rows. rewrite draw_row_spec, IH. unfold tabulate.
  f_equal.
  - simpl. f_equal. rewrite <- seq_shift, map_map. apply map_ext. intros k.
    apply map_ext. intros j. rewrite nth_draw_advance. f_equal. lia.
  - rewrite <- advance_add. f_equal.
Qed.

(** ** RFFKGauss.gen_features *)

(** The projection: entry (i, k) of X . W^T, for W the scaled draws. *)
Lemma projection_spec (o : RFFKGauss) (A : ndarray) :
  wf_ndarray A ->
  let draws := Z.to_nat (n_features o / 2) in
  let N := {| shape := (draws, ncols A);
              data := fst (draw_rows draws (ncols A)
                             (seed_state G (seed o))) |} in
  np_dot A (transpose (div_scalar N (sqrt (sigma2 o))))
  = Return {| shape := (nrows A, draws);
              data := tabulate (nrows A) draws (spec_P o A) |}.
Proof.
  intros HA draws N. unfold np_dot.
  change (nrows (transpose (div_scalar N (sqrt (sigma2 o)))))
    with (ncols A).
  change (ncols (transpose (div_scalar N (sqrt (sigma2 o)))))
    with draws.
  rewrite Nat.eqb_refl. do 2 f_equal.
  rewrite (wf_tabulate A HA) at 1. unfold tabulate at 1. rewrite map_map.
  apply map_ext_in. intros i Hi. apply map_ext_in. intros k Hk.
  apply in_seq in Hi, Hk.
  unfold col, transpose, div_scalar, N. cbn [data ncols shape snd].
  rewrite draw_rows_spec. cbn [fst]. rewrite map_tabulate, map_map.
  rewrite (map_ext_in (fun j => nth k _ 0)
             (fun j => nth_draw (seed_state G (seed o)) (k * ncols A + j)
                       / sqrt (sigma2 o))).
  - rewrite inner_map_seq. unfold spec_P. apply sum_upto_ext. intros j Hj.
    unfold spec_W. simpl. unfold Rdiv. ring.
  - intros j Hj. apply in_seq in Hj.
    unfold col. cbn [data].
    rewrite col_tabulate by lia. rewrite nth_map_seq by lia. reflexivity.
Qed.

Lemma n_features_halves (o : RFFKGauss) :
  (0 < n_features o)%Z -> (n_features o mod 2 = 0)%Z ->
  (Z.to_nat (n_features o / 2) + Z.to_nat (n_features o / 2))%nat
  = Z.to_nat (n_features o).
Proof.
  intros Hpos Heven.
  pose proof (Z.div_mod (n_features o) 2 ltac:(lia)) as Hdiv.
  rewrite Heven in Hdiv. lia.
Qed.

(** The array computations of [gen_features] after the draws. *)
Lemma features_spec (o : RFFKGauss) (A : ndarray) :
  (0 < n_features o)%Z -> (n_features o mod 2 = 0)%Z ->
  let draws := Z.to_nat (n_features o / 2) in
  let XWT := {| shape := (nrows A, draws);
                data := tabulate (nrows A) draws (spec_P o A) |} in
  exists H,
    np_hstack (np_cos XWT) (np_sin XWT) = Return H /\
    mul_scalar H (sqrt (2 / IZR (n_features o))) = spec_features o A.
Proof.
  intros Hpos Heven draws XWT. unfold np_hstack.
  change (nrows (np_cos XWT)) with (nrows A).
  change (nrows (np_sin XWT)) with (nrows A).
  rewrite Nat.eqb_refl. eexists. split; [reflexivity|].
  unfold mul_scalar, spec_features, np_cos, np_sin, XWT, ncols.
  cbn [shape data snd fst].
  rewrite !map_tabulate, zip_rows_tabulate, map_tabulate.
  pose proof (n_features_halves o Hpos Heven) as Hh.
  fold draws in Hh |- *. rewrite Hh. f_equal.
  apply tabulate_ext. intros i k _ _. unfold spec_Z. fold draws.
  destruct (k <? draws)%nat; ring.
Qed.

Lemma with_NumpySeedContext_body {A} (sd : Z) (body : M A) (w w2 : World)
    (r : outcome A) :
  body {| np_random := seed_state G sd; heap := heap w |} = (r, w2) ->
  with_NumpySeedContext sd body w
  = (r, {| np_random := np_random w; heap := heap w2 |}).
Proof.
  intros H. rewrite with_NumpySeedContext_run. cbv zeta. now rewrite H.
Qed.

Lemma RFFKGauss_gen_features_run (w : World) (self X : ref)
    (o : RFFKGauss) (A : ndarray) :
  nth_error (heap w) self = Some (RFFKGaussObj o) ->
  nth_error (heap w) X = Some (Ndarray A) ->
  wf_ndarray A ->
  (0 < n_features o)%Z -> (n_features o mod 2 = 0)%Z ->
  RFFKGauss_gen_features self X w = (Return (spec_features o A), w).
Proof.
  intros Hself HX HA Hpos Heven.
  assert (Hnf : (0 <= n_features o / 2)%Z) by (apply Z.div_pos; lia).
  destruct (features_spec o A Hpos Heven) as (H & Hstack & Hmul).
  unfold RFFKGauss_gen_features.
  rewrite (bind_Return _ _ _ _ _ (getattr_run w self o seed Hself)).
  erewrite bind_Return; [|apply with_NumpySeedContext_body].
  2:{ set (w1 := {| np_random := _; heap := heap w |}).
      rewrite (bind_Return _ _ w1 _ _ (load_ndarray_run w1 X A HX)).
      rewrite (surjective_pairing (shape A)). fold (nrows A) (ncols A).
      rewrite (bind_Return _ _ w1 _ _
                 (getattr_run w1 self o n_features Hself)).
      rewrite (bind_Return _ _ w1 _ _
                 (np_random_randn_run _ (ncols A) w1 Hnf)).
      set (w2 := {| np_random := _; heap := heap w1 |}).
      rewrite (bind_Return _ _ w2 _ _ (getattr_run w2 self o sigma2 Hself)).
      rewrite (bind_Return _ _ w2 _ _ (load_ndarray_run w2 X A HX)).
      unfold w1 at 1. cbn [np_random].
      rewrite (projection_spec o A HA). unfold lift at 1, bind at 1.
      rewrite Hstack. unfold lift at 1, bind at 1.
      rewrite (bind_Return _ _ w2 _ _
                 (getattr_run w2 self o n_features Hself)).
      unfold truediv. rewrite (proj2 (Z.eqb_neq _ 0)) by lia.
      unfold lift at 1, bind at 1.
      unfold ret. rewrite Hmul. reflexivity. }
  unfold ret. destruct w; reflexivity.
Qed.

(** ** What a call reads and what it leaves behind *)

Lemma reads_heap_only_world {A} (c : M A) (w : World) :
  reads_heap_only c -> snd (c w) = w.
Proof. intros H. destruct (H w) as [r Hr]. now rewrite Hr. Qed.

Lemma reads_heap_only_outcome {A} (c : M A) (w w' : World) :
  reads_heap_only c -> heap w' = heap w -> fst (c w') = fst (c w).
Proof.
  intros H Hh. destruct (H w) as [r Hr].
  now rewrite (Hr w' Hh), (Hr w eq_refl).
Qed.

Lemma reads_ret {A} (a : A) : reads_heap_only (ret a).
Proof. intros w. now exists (Return a). Qed.

Lemma reads_raise {A} (e : exn) : reads_heap_only (@raise A e).
Proof. intros w. now exists (Raise e). Qed.

Lemma reads_lift {A} (r : outcome A) : reads_heap_only (lift r).
Proof. intros w. now exists r. Qed.

Lemma reads_bind {A B} (c : M A) (k : A -> M B) :
  reads_heap_only c -> (forall a, reads_heap_only (k a)) ->
  reads_heap_only (bind c k).
Proof.
  intros Hc Hk w. destruct (Hc w) as [[a|e] Hr].
  - destruct (Hk a w) as [r' Hr']. exists r'. intros w' Hw'.
    unfold bind. rewrite (Hr w' Hw'). now apply Hr'.
  - exists (Raise e). intros w' Hw'. unfold bind. now rewrite (Hr w' Hw').
Qed.

Lemma reads_of_heap {A} (c : M A) (f : list object -> outcome A) :
  (forall w, c w = (f (heap w), w)) -> reads_heap_only c.
Proof.
  intros H w. exists (f (heap w)). intros w' Hw'. now rewrite H, Hw'.
Qed.

Lemma reads_load_ndarray (X : ref) : reads_heap_only (load_ndarray X).
Proof.
  apply (reads_of_heap _ (fun h => match nth_error h X with
                                   | Some (Ndarray a) => Return a
                                   | _ => Raise AttributeError
                                   end)).
  intros w. unfold load_ndarray.
  destruct (nth_error (heap w) X) as [[a| |o]|]; reflexivity.
Qed.

Lemma reads_getattr {T} (self : ref) (field : RFFKGauss -> T) :
  reads_heap_only (getattr self field).
Proof.
  apply (reads_of_heap _ (fun h => match nth_error h self with
                                   | Some (RFFKGaussObj o) => Return (field o)
                                   | _ => Raise AttributeError
                                   end)).
  intros w. unfold getattr.
  destruct (nth_error (heap w) self) as [[a| |o]|]; reflexivity.
Qed.

Lemma reads_getitem_col (X : ref) (j : nat) :
  reads_heap_only (getitem_col X j).
Proof.
  apply reads_bind; [apply reads_load_ndarray|]. intros A.
  destruct (j <? ncols A)%nat; [apply reads_ret | apply reads_raise].
Qed.

Create HintDb reads.

#[local] Hint Resolve reads_ret reads_raise reads_lift reads_load_ndarray
  reads_getattr reads_getitem_col : reads.

Lemma reads_for_each {S} (js : list nat) (body : nat -> S -> M S) :
  (forall j acc, reads_heap_only (body j acc)) ->
  forall acc, reads_heap_only (for_each js body acc).
Proof.
  intros Hbody. induction js as [|j js IH]; intros acc; simpl.
  - apply reads_ret.
  - apply reads_bind; [apply Hbody | exact IH].
Qed.

Lemma reads_MarginalCDFMap_gen_features (self X : ref) :
  reads_heap_only (MarginalCDFMap_gen_features self X).
Proof.
  apply reads_bind; auto with reads. intros A.
  destruct (shape A) as [n d].
  apply reads_bind; auto with reads.
  apply reads_for_each. intros j Z.
  apply reads_bind; auto with reads.
Qed.


(** The heap is left alone by every step of a computation. *)

Lemma preserves_of_reads {A} (c : M A) :
  reads_heap_only c -> preserves_heap c.
Proof. intros H w. now rewrite reads_heap_only_world. Qed.

Lemma preserves_bind {A B} (c : M A) (k : A -> M B) :
  preserves_heap c -> (forall a, preserves_heap (k a)) ->
  preserves_heap (bind c k).
Proof.
  intros Hc Hk w. unfold bind. specialize (Hc w).
  destruct (c w) as [[a|e] w1]; simpl in Hc; [|exact Hc].
  now rewrite Hk.
Qed.

Lemma preserves_np_random_randn (m : Z) (d : nat) :
  preserves_heap (np_random_randn m d).
Proof.
  intros w. unfold np_random_randn.
  destruct (m <? 0)%Z; [reflexivity|].
  now destruct (draw_rows _ _ _).
Qed.

(** The block of [RFFKGauss.gen_features] under the seed context. *)
Lemma preserves_RFFKGauss_block (self X : ref) :
  preserves_heap
    (A <- load_ndarray X ;;
     let '(n, d) := shape A in
     nf <- getattr self n_features ;;
     let draws := (nf / 2)%Z in
     N <- np_random_randn draws d ;;
     s2 <- getattr self sigma2 ;;
     let W := div_scalar N (sqrt s2) in
     A' <- load_ndarray X ;;
     XWT <- lift (np_dot A' (transpose W)) ;;
     let Z1 := np_cos XWT in
     let Z2 := np_sin XWT in
     H <- lift (np_hstack Z1 Z2) ;;
     nf' <- getattr self n_features ;;
     c <- lift (truediv 2 nf') ;;
     ret (mul_scalar H (sqrt c))).
Proof.
  apply preserves_bind;
    [apply preserves_of_reads, reads_load_ndarray|]. intros A.
  destruct (shape A) as [n d].
  repeat first
    [ apply preserves_np_random_randn
    | apply preserves_of_reads, reads_getattr
    | apply preserves_of_reads, reads_load_ndarray
    | apply preserves_of_reads, reads_lift
    | apply preserves_of_reads, reads_ret
    | apply preserves_bind; [|intros ?] ].
Qed.

(** A block under the seed context reads the heap only, if it leaves the
    heap alone: the state of the generator that the block sees is the seeded
    one, and the state it leaves is put back. *)
Lemma reads_with_NumpySeedContext {A} (sd : Z) (body : M A) :
  preserves_heap body -> reads_heap_only (with_NumpySeedContext sd body).
Proof.
  intros Hbody w.
  exists (fst (body {| np_random := seed_state G sd; heap := heap w |})).
  intros w' Hw'. rewrite with_NumpySeedContext_run. cbv zeta.
  rewrite Hbody, Hw'. cbn [heap]. rewrite <- Hw'. now destruct w'.
Qed.

Lemma reads_RFFKGauss_gen_features (self X : ref) :
  reads_heap_only (RFFKGauss_gen_features self X).
Proof.
  apply reads_bind; [apply reads_getattr|]. intros sd.
  apply reads_bind; [|intros; apply reads_ret].
  apply reads_with_NumpySeedContext, preserves_RFFKGauss_block.
Qed.

Lemma reads_gen_features (self X : ref) :
  reads_heap_only (gen_features self X).
Proof.
  intros w. unfold gen_features.
  destruct (nth_error (heap w) self) as [[a| |o]|] eqn:E.
  - exists (Raise AttributeError). intros w' Hw'. now rewrite Hw', E.
  - destruct (reads_MarginalCDFMap_gen_features self X w) as [r Hr].
    exists r. intros w' Hw'. rewrite Hw', E. now apply Hr.
  - destruct (reads_RFFKGauss_gen_features self X w) as [r Hr].
    exists r. intros w' Hw'. rewrite Hw', E. now apply Hr.
  - exists (Raise AttributeError). intros w' Hw'. now rewrite Hw', E.
Qed.

(** ** The range of the ranks *)

Lemma nth_col (A : ndarray) (i j : nat) : nth i (col A j) 0 = entry A i j.
Proof.
  unfold col, entry.
  assert (E : 0 = nth j [] 0) by now destruct j.
  rewrite E at 1.
  exact (map_nth (fun r => nth j r 0) (data A) [] i).
Qed.

Lemma rank_bounds (x : R) (a : list R) :
  In x a ->
  1 <= 0.5 * (INR (count_le x a) + INR (count_lt x a) + 1) <= INR (length a).
Proof.
  intros Hx.
  pose proof (count_eq_In x a Hx) as Heq.
  pose proof (count_le_length x a) as Hle.
  pose proof (count_le_split x a) as Hsplit.
  assert (H1 : (1 <= count_le x a)%nat) by lia.
  assert (H2 : (count_lt x a + 1 <= length a)%nat) by lia.
  apply le_INR in H1, H2, Hle. rewrite plus_INR in H2.
  pose proof (pos_INR (count_lt x a)).
  change (INR 1) with 1 in *. lra.
Qed.

(** Every entry of [rankdata(a) / n], for n the length of [a], is in
    (0, 1]. *)
Lemma cdf_column_range (a : list R) :
  Forall (fun z => 0 < z <= 1) (div_vector (rankdata a) (INR (length a))).
Proof.
  unfold div_vector, rankdata. rewrite map_map.
  apply Forall_forall. intros z Hz.
  apply in_map_iff in Hz as (x & <- & Hx).
  pose proof (rank_bounds x a Hx) as Hb.
  assert (Hn : 0 < INR (length a)).
  { apply lt_0_INR. destruct a; [easy | simpl; lia]. }
  split.
  - apply Rdiv_lt_0_compat; lra.
  - apply (Rmult_le_reg_r (INR (length a))); [assumption|].
    unfold Rdiv. rewrite Rmult_assoc, Rinv_l; lra.
Qed.

(** ** The largest entry *)

Lemma fold_left_Rmax_ge (l : list R) (a : R) :
  a <= fold_left Rmax l a /\ Forall (fun x => x <= fold_left Rmax l a) l.
Proof.
  revert a. induction l as [|y l IH]; intros a; simpl.
  - split; [lra | constructor].
  - destruct (IH (Rmax a y)) as [H1 H2].
    pose proof (Rmax_l a y). pose proof (Rmax_r a y).
    split; [lra|]. constructor; [lra | assumption].
Qed.


Lemma list_max_ge (l : list R) (x : R) : In x l -> x <= list_max l.
Proof.
  destruct l as [|a l]; simpl; [tauto|].
  destruct (fold_left_Rmax_ge l a) as [H1 H2]. rewrite Forall_forall in H2.
  intros [<-|H]; auto.
Qed.


Lemma fold_left_Rmax_map (f : R -> R) (l : list R) (a : R) :
  (forall x y, x <= y -> f x <= f y) ->
  fold_left Rmax (map f l) (f a) = f (fold_left Rmax l a).
Proof.
  intros Hf. revert a. induction l as [|y l IH]; intros a; simpl;
    [reflexivity|].
  rewrite <- IH. f_equal. unfold Rmax.
  destruct (Rle_dec a y) as [H|H]; destruct (Rle_dec (f a) (f y)) as [H'|H'];
    try reflexivity.
  - apply Hf in H. contradiction.
  - assert (y <= a) by lra. apply Hf in H0. lra.
Qed.

Lemma list_max_map (f : R -> R) (l : list R) :
  (forall x y, x <= y -> f x <= f y) -> l <> [] ->
  list_max (map f l) = f (list_max l).
Proof.
  intros Hf. destruct l as [|a l]; [congruence|]. intros _.
  simpl. now apply fold_left_Rmax_map.
Qed.

Lemma count_le_all (m : R) (a : list R) :
  Forall (fun x => x <= m) a -> count_le m a = length a.
Proof.
  induction 1 as [|x a Hx _ IH]; [reflexivity|].
  rewrite count_le_cons, IH. compare_reals. reflexivity.
Qed.

(** The largest entry of [rankdata(a) / n]: with k entries of [a] at its
    largest value, they share the ranks n - k + 1, ..., n. *)
Lemma cdf_column_max (a : list R) :
  a <> [] ->
  list_max (div_vector (rankdata a) (INR (length a)))
  = 1 - (INR (count_eq (list_max a) a) - 1) / (2 * INR (length a)).
Proof.
  intros Ha. unfold div_vector, rankdata. rewrite map_map.
  rewrite (list_max_map
             (fun x => 0.5 * (INR (count_le x a) + INR (count_lt x a) + 1)
                       / INR (length a))); [|
    | assumption].
  - assert (Hall : Forall (fun x => x <= list_max a) a).
    { apply Forall_forall. intros x. apply list_max_ge. }
    pose proof (count_le_split (list_max a) a) as Hsplit.
    rewrite (count_le_all _ _ Hall) in *. rewrite Hsplit at 1.
    rewrite plus_INR.
    assert (Hlt : INR (count_lt (list_max a) a)
                  = INR (length a) - INR (count_eq (list_max a) a)).
    { rewrite Hsplit, plus_INR. lra. }
    rewrite Hlt.
    assert (Hn : 0 < INR (length a)).
    { apply lt_0_INR. destruct a; [congruence | simpl; lia]. }
    replace 0.5 with (1 / 2) by lra. field. lra.
  - intros x y Hxy.
    pose proof (count_le_mono x y a Hxy) as H1.
    pose proof (count_lt_mono x y a Hxy) as H2.
    apply le_INR in H1, H2.
    assert (Hn : 0 <= / INR (length a)).
    { destruct a; [congruence|].
      apply Rlt_le, Rinv_0_lt_compat, lt_0_INR. simpl; lia. }
    unfold Rdiv. apply Rmult_le_compat_r; [assumption | lra].
Qed.

(** ** A column with a tie at the top *)

Lemma tied_column_ranks :
  div_vector (rankdata (col tied_X 0)) (INR (nrows tied_X)) = [0.75; 0.75].
Proof.
  unfold div_vector, rankdata, tied_X, col, nrows. simpl map.
  rewrite !count_le_cons, !count_lt_cons. compare_reals.
  unfold count_le, count_lt. simpl.
  repeat (f_equal; try lra).
Qed.

Lemma tied_column_count :
  count_eq (list_max (col tied_X 0)) (col tied_X 0) = 2%nat.
Proof.
  unfold tied_X, col. simpl. rewrite Rmax_left by lra.
  rewrite !count_eq_cons. compare_reals. reflexivity.
Qed.

(** ** Dispatch and construction *)

Lemma gen_features_MarginalCDFMap (w : World) (self X : ref) :
  nth_error (heap w) self = Some MarginalCDFMap ->
  gen_features self X w = MarginalCDFMap_gen_features self X w.
Proof. intros H. unfold gen_features. now rewrite H. Qed.

Lemma gen_features_RFFKGauss (w : World) (self X : ref) (o : RFFKGauss) :
  nth_error (heap w) self = Some (RFFKGaussObj o) ->
  gen_features self X w = RFFKGauss_gen_features self X w.
Proof. intros H. unfold gen_features. now rewrite H. Qed.

(** What a construction that went through says of the instance. *)
Lemma RFFKGauss_init_Return (s2 : R) (nf : Z) (sd : option Z)
    (o : RFFKGauss) :
  RFFKGauss_init s2 nf sd = Return o ->
  0 < s2 /\ (0 < nf)%Z /\ (nf mod 2 = 0)%Z /\
  sigma2 o = s2 /\ n_features o = nf /\
  seed o = match sd with Some s => s | None => 1%Z end.
Proof.
  unfold RFFKGauss_init. destruct (Rle_dec s2 0) as [H|H]; [discriminate|].
  destruct ((0 <? nf)%Z && (nf mod 2 =? 0)%Z) eqn:E; simpl; [|discriminate].
  intros [= <-]. apply andb_prop in E as [E1 E2].
  apply Z.ltb_lt in E1. apply Z.eqb_eq in E2. simpl.
  repeat split; auto. lra.
Qed.

Lemma spec_features_wf (o : RFFKGauss) (A : ndarray) :
  wf_ndarray (spec_features o A).
Proof.
  split; simpl; [apply tabulate_length | apply tabulate_row_length].
Qed.

Lemma gen_features_RFFKGauss_run (w : World) (self X : ref) (s2 : R)
    (nf : Z) (sd : option Z) (o : RFFKGauss) (A : ndarray) :
  RFFKGauss_init s2 nf sd = Return o ->
  nth_error (heap w) self = Some (RFFKGaussObj o) ->
  nth_error (heap w) X = Some (Ndarray A) -> wf_ndarray A ->
  gen_features self X w = (Return (spec_features o A), w).
Proof.
  intros Hinit Hself HX HA.
  apply RFFKGauss_init_Return in Hinit as (_ & Hpos & Heven & _ & Hnf & _).
  rewrite (gen_features_RFFKGauss w self X o Hself).
  apply RFFKGauss_gen_features_run; auto; now rewrite Hnf.
Qed.

(** * The claims *)

(** C9.  Calling a feature map, [m(X)], is [m.gen_features(X)]: the same
    computation, so the same outcome and the same world after it, from
    every world. *)
Theorem FeatureMap_call_is_gen_features (self X : ref) (w : World) :
  FeatureMap_call self X w = gen_features self X w.
Proof. reflexivity. Qed.

(** C8.  [num_features] of an RFFKGauss instance returns its [n_features],
    whatever the argument and also without one; for an instance built with
    sigma2 = 1.0 and n_features = 4 it returns 4. *)
Theorem RFFKGauss_num_features_is_n_features (w : World) (self : ref) :
  (forall (o : RFFKGauss) (X : option ref),
     nth_error (heap w) self = Some (RFFKGaussObj o) ->
     num_features self X w = (Return (n_features o), w)) /\
  (forall (o : RFFKGauss) (sd : option Z),
     RFFKGauss_init 1 4 sd = Return o ->
     nth_error (heap w) self = Some (RFFKGaussObj o) ->
     num_features self None w = (Return 4%Z, w)).
Proof.
  assert (H : forall o X, nth_error (heap w) self = Some (RFFKGaussObj o) ->
                          num_features self X w = (Return (n_features o), w)).
  { intros o X Hself. unfold num_features, RFFKGauss_num_features.
    rewrite Hself. now apply getattr_run. }
  split; [exact H|]. intros o sd Hinit Hself.
  apply RFFKGauss_init_Return in Hinit as (_ & _ & _ & _ & Hnf & _).
  rewrite (H o None Hself). now rewrite Hnf.
Qed.

(** C5.  The constructor of RFFKGauss raises ValueError exactly when
    sigma2 <= 0 or n_features is not a positive even integer, and then
    there is no instance; otherwise it returns the instance with the given
    fields.  sigma2 = 0 fails, n_features = 3 fails, and sigma2 = 1.0 with
    n_features = 4 goes through. *)
Theorem RFFKGauss_init_validation (s2 : R) (nf : Z) (sd : option Z) :
  (RFFKGauss_init s2 nf sd = Raise ValueError <->
   s2 <= 0 \/ ~ (0 < nf /\ Z.even nf = true)%Z) /\
  ((exists e, RFFKGauss_init s2 nf sd = Raise e) <->
   s2 <= 0 \/ ~ (0 < nf /\ Z.even nf = true)%Z) /\
  (s2 <= 0 \/ ~ (0 < nf /\ Z.even nf = true)%Z ->
   forall o, RFFKGauss_init s2 nf sd <> Return o) /\
  (~ (s2 <= 0 \/ ~ (0 < nf /\ Z.even nf = true)%Z) ->
   RFFKGauss_init s2 nf sd
   = Return {| sigma2 := s2; n_features := nf;
               seed := match sd with Some s => s | None => 1%Z end |}) /\
  RFFKGauss_init 0 nf sd = Raise ValueError /\
  RFFKGauss_init s2 3 sd = Raise ValueError /\
  RFFKGauss_init 1 4 sd
  = Return {| sigma2 := 1; n_features := 4;
              seed := match sd with Some s => s | None => 1%Z end |}.
Proof.
  assert (Hcases :
    (s2 <= 0 \/ ~ (0 < nf /\ Z.even nf = true)%Z) /\
    RFFKGauss_init s2 nf sd = Raise ValueError
    \/
    ~ (s2 <= 0 \/ ~ (0 < nf /\ Z.even nf = true)%Z) /\
    RFFKGauss_init s2 nf sd
    = Return {| sigma2 := s2; n_features := nf;
                seed := match sd with Some s => s | None => 1%Z end |}).
  { unfold RFFKGauss_init.
    destruct (Rle_dec s2 0) as [H|H]; [now left; split; [left|]|].
    destruct (0 <? nf)%Z eqn:E1; simpl.
    - apply Z.ltb_lt in E1. rewrite Zmod_even.
      destruct (Z.even nf) eqn:E2; simpl.
      + right. split; [|reflexivity]. intros [?|Hn]; [lra|]. apply Hn.
        split; [assumption | reflexivity].
      + left. split; [|reflexivity]. right. intros [_ ?]. discriminate.
    - apply Z.ltb_ge in E1. left. split; [|reflexivity].
      right. intros [? _]. lia. }
  repeat split.
  - intros H. destruct Hcases as [[Hc _]|[_ Hr]]; [exact Hc|congruence].
  - intros H. destruct Hcases as [[_ Hr]|[Hc _]]; [exact Hr|tauto].
  - intros [e H]. destruct Hcases as [[Hc _]|[_ Hr]]; [exact Hc|congruence].
  - intros H. exists ValueError.
    destruct Hcases as [[_ Hr]|[Hc _]]; [exact Hr|tauto].
  - intros H o. destruct Hcases as [[_ Hr]|[Hc _]]; [congruence|tauto].
  - intros H. destruct Hcases as [[Hc _]|[_ Hr]]; [tauto|exact Hr].
  - unfold RFFKGauss_init. destruct (Rle_dec 0 0); [reflexivity|lra].
  - unfold RFFKGauss_init. destruct (Rle_dec s2 0); reflexivity.
  - unfold RFFKGauss_init. destruct (Rle_dec 1 0); [lra|reflexivity].
Qed.

(** C4.  For a validly constructed RFFKGauss and an n x d array X,
    [gen_features(X)] returns the array that the specification describes
    and nothing else: W is the (n_features // 2) x d array of draws from
    the stream seeded with [seed], each scaled by 1 / sqrt(sigma2),
    P = X . W^T, and the result is [cos(P) | sin(P)] scaled by
    sqrt(2 / n_features). *)
Theorem RFFKGauss_gen_features_spec (w : World) (self X : ref) (s2 : R)
    (nf : Z) (sd : option Z) (o : RFFKGauss) (A : ndarray) :
  RFFKGauss_init s2 nf sd = Return o ->
  nth_error (heap w) self = Some (RFFKGaussObj o) ->
  nth_error (heap w) X = Some (Ndarray A) -> wf_ndarray A ->
  RFFKGauss_gen_features self X w = (Return (spec_features o A), w) /\
  gen_features self X w = (Return (spec_features o A), w) /\
  (forall i k, (i < nrows A)%nat -> (k < Z.to_nat nf)%nat ->
               entry (spec_features o A) i k = spec_Z o A i k).
Proof.
  intros Hinit Hself HX HA.
  pose proof (gen_features_RFFKGauss_run w self X s2 nf sd o A
                Hinit Hself HX HA) as Hrun.
  split; [|split; [exact Hrun|]].
  - now rewrite <- (gen_features_RFFKGauss w self X o Hself).
  - intros i k Hi Hk.
    apply RFFKGauss_init_Return in Hinit as (_ & _ & _ & _ & Hnf & _).
    unfold entry. simpl. apply tabulate_nth; [assumption | now rewrite Hnf].
Qed.

(** C2.  On an n x d array X, [gen_features(X)] of a MarginalCDFMap or of
    a validly constructed RFFKGauss returns an array of n rows and D
    columns, D being what [num_features(X)] of the same map returns: d for
    MarginalCDFMap and n_features for RFFKGauss. *)
Theorem gen_features_shape (w : World) (self X : ref) (A : ndarray) :
  nth_error (heap w) X = Some (Ndarray A) -> wf_ndarray A ->
  (nth_error (heap w) self = Some MarginalCDFMap \/
   exists s2 nf sd o,
     RFFKGauss_init s2 nf sd = Return o /\
     nth_error (heap w) self = Some (RFFKGaussObj o)) ->
  exists Z D,
    gen_features self X w = (Return Z, w) /\
    num_features self (Some X) w = (Return D, w) /\
    wf_ndarray Z /\ nrows Z = nrows A /\ Z.of_nat (ncols Z) = D /\
    (nth_error (heap w) self = Some MarginalCDFMap -> ncols Z = ncols A) /\
    (forall o, nth_error (heap w) self = Some (RFFKGaussObj o) ->
               D = n_features o).
Proof.
  intros HX HA [Hself|(s2 & nf & sd & o & Hinit & Hself)].
  - destruct (MarginalCDFMap_gen_features_run w self X A HX HA)
      as (Z & Hrun & HZ & Hsh & _).
    exists Z, (Z.of_nat (ncols A)).
    rewrite (gen_features_MarginalCDFMap w self X Hself).
    unfold num_features. rewrite Hself.
    unfold MarginalCDFMap_num_features.
    rewrite (bind_Return _ _ _ _ _ (load_ndarray_run w X A HX)).
    unfold nrows, ncols. rewrite Hsh.
    repeat split; auto; try apply HZ. intros o' Ho'. congruence.
  - exists (spec_features o A), (n_features o).
    rewrite (gen_features_RFFKGauss_run w self X s2 nf sd o A) by assumption.
    unfold num_features, RFFKGauss_num_features. rewrite Hself.
    rewrite (getattr_run w self o n_features Hself).
    apply RFFKGauss_init_Return in Hinit as (_ & Hpos & _ & _ & Hnf & _).
    pose proof (spec_features_wf o A) as [H1 H2].
    repeat split; auto.
    + unfold ncols. simpl. lia.
    + intros H'. congruence.
    + intros o' Ho'. congruence.
Qed.

(** C3.  [MarginalCDFMap.gen_features] writes each column of the result
    from the same column of X alone: the average rank of each entry (an
    entry and its ties receive the mean of the ranks they occupy in sorted
    order), divided by the number of rows n.  A column [1, 1, 2] becomes
    [0.5, 0.5, 1.0]. *)
Theorem MarginalCDFMap_gen_features_average_rank (w : World) (self X : ref)
    (A : ndarray) :
  nth_error (heap w) self = Some MarginalCDFMap ->
  nth_error (heap w) X = Some (Ndarray A) -> wf_ndarray A ->
  exists Z,
    gen_features self X w = (Return Z, w) /\
    wf_ndarray Z /\ shape Z = shape A /\
    (forall j, (j < ncols A)%nat ->
               col Z j = div_vector (average_rank (col A j))
                                    (INR (nrows A))) /\
    (forall j, (j < ncols A)%nat -> col A j = [1; 1; 2] ->
               col Z j = [0.5; 0.5; 1]).
Proof.
  intros Hself HX HA.
  destruct (MarginalCDFMap_gen_features_run w self X A HX HA)
    as (Z & Hrun & HZ & Hsh & Hcol).
  exists Z. rewrite (gen_features_MarginalCDFMap w self X Hself).
  split; [assumption|]. split; [assumption|]. split; [assumption|]. split.
  - intros j Hj. rewrite (Hcol j Hj). now rewrite rankdata_average_rank.
  - intros j Hj Hc. rewrite (Hcol j Hj), Hc.
    assert (Hn : nrows A = 3%nat).
    { destruct HA as [<- _]. now rewrite <- (col_length A j), Hc. }
    rewrite Hn. unfold div_vector, rankdata. simpl map.
    rewrite !count_le_cons, !count_lt_cons. compare_reals.
    unfold count_le, count_lt. simpl.
    repeat (f_equal; try lra).
Qed.

(** C6, as amended.  For X of n >= 1 rows, every entry of
    [MarginalCDFMap.gen_features(X)] is in (0, 1].  The largest entry of a
    column of the result is 1 - (k - 1) / (2 n), for k the number of
    entries of that column of X at its largest value: it is 1 exactly when
    the largest value of the column of X stands there once. *)
Theorem MarginalCDFMap_gen_features_range (w : World) (self X : ref)
    (A : ndarray) :
  nth_error (heap w) self = Some MarginalCDFMap ->
  nth_error (heap w) X = Some (Ndarray A) -> wf_ndarray A ->
  (1 <= nrows A)%nat ->
  exists Z,
    gen_features self X w = (Return Z, w) /\
    (forall i j, (i < nrows A)%nat -> (j < ncols A)%nat ->
                 0 < entry Z i j <= 1) /\
    (forall j, (j < ncols A)%nat ->
       let k := count_eq (list_max (col A j)) (col A j) in
       list_max (col Z j) = 1 - (INR k - 1) / (2 * INR (nrows A)) /\
       (list_max (col Z j) = 1 <-> k = 1%nat)).
Proof.
  intros Hself HX HA Hn.
  destruct (MarginalCDFMap_gen_features_run w self X A HX HA)
    as (Z & Hrun & HZ & Hsh & Hcol).
  exists Z. rewrite (gen_features_MarginalCDFMap w self X Hself).
  split; [assumption|].
  assert (Hlen : forall j, length (col A j) = nrows A).
  { intros j. rewrite col_length. apply HA. }
  split.
  - intros i j Hi Hj. rewrite <- nth_col, (Hcol j Hj), <- (Hlen j).
    pose proof (cdf_column_range (col A j)) as Hr.
    rewrite Forall_forall in Hr. apply Hr, nth_In.
    unfold div_vector. rewrite length_map, rankdata_length, Hlen. exact Hi.
  - intros j Hj k.
    assert (Hne : col A j <> []).
    { intros E. specialize (Hlen j). rewrite E in Hlen. simpl in Hlen. lia. }
    assert (Hmax : list_max (col Z j)
                   = 1 - (INR k - 1) / (2 * INR (nrows A))).
    { rewrite (Hcol j Hj), <- (Hlen j). now apply cdf_column_max. }
    split; [exact Hmax|]. rewrite Hmax.
    assert (Hpos : 0 < INR (nrows A)) by (apply lt_0_INR; lia).
    split.
    + intros H.
      assert (Hk : (INR k - 1) / (2 * INR (nrows A)) = 0) by lra.
      apply (f_equal (fun x => x * (2 * INR (nrows A)))) in Hk.
      unfold Rdiv in Hk. rewrite Rmult_assoc, Rinv_l, Rmult_0_l in Hk by lra.
      apply INR_eq. change (INR 1) with 1. lra.
    + intros ->. change (INR 1) with 1. unfold Rdiv. lra.
Qed.

(** C1.  [gen_features] is deterministic.  Its outcome is decided by the
    objects alone, not by the state of the process-wide generator: a second
    call on the same X gives the very outcome of the first, and so does a
    call made after other code has drawn from the generator; two RFFKGauss
    instances constructed with the same (sigma2, n_features, seed) return
    the same array on the same X. *)
Theorem gen_features_deterministic (w : World) (self X : ref) :
  (forall r w1, gen_features self X w = (r, w1) ->
                gen_features self X w1 = (r, w1)) /\
  (forall w', heap w' = heap w ->
              fst (gen_features self X w') = fst (gen_features self X w)) /\
  (forall self' s2 nf sd o o' A,
     RFFKGauss_init s2 nf sd = Return o ->
     RFFKGauss_init s2 nf sd = Return o' ->
     nth_error (heap w) self = Some (RFFKGaussObj o) ->
     nth_error (heap w) self' = Some (RFFKGaussObj o') ->
     nth_error (heap w) X = Some (Ndarray A) -> wf_ndarray A ->
     exists Z, gen_features self X w = (Return Z, w) /\
               gen_features self' X w = (Return Z, w)).
Proof.
  pose proof (reads_gen_features self X) as Hreads.
  split; [|split].
  - intros r w1 Hrun.
    pose proof (reads_heap_only_world _ w Hreads) as Hw.
    rewrite Hrun in Hw. simpl in Hw. now subst w1.
  - intros w' Hw'. now apply reads_heap_only_outcome.
  - intros self' s2 nf sd o o' A Hinit Hinit' Hself Hself' HX HA.
    assert (o' = o) by congruence. subst o'.
    exists (spec_features o A).
    split; now apply (gen_features_RFFKGauss_run w _ X s2 nf sd).
Qed.

(** C7.  [RFFKGauss.gen_features] changes nothing but its return value.
    The world after the call is the world before it, whether the call
    returns or raises: the array X, the fields of the instance and the
    state of the process-wide generator.  The seed context puts the state
    of the generator back on every way out of its block, whatever the block
    is.  So a draw from the generator after the call is the draw that would
    have been made without the call. *)
Theorem RFFKGauss_gen_features_frame :
  (forall self X w, snd (RFFKGauss_gen_features self X w) = w) /\
  (forall A sd (body : M A) w,
     np_random (snd (with_NumpySeedContext sd body w)) = np_random w) /\
  (forall self X w r w' m d,
     RFFKGauss_gen_features self X w = (r, w') ->
     np_random_randn m d w' = np_random_randn m d w).
Proof.
  assert (H : forall self X w, snd (RFFKGauss_gen_features self X w) = w).
  { intros. apply reads_heap_only_world, reads_RFFKGauss_gen_features. }
  split; [exact H|]. split.
  - intros A sd body w. now rewrite with_NumpySeedContext_run.
  - intros self X w r w' m d Hrun. specialize (H self X w).
    rewrite Hrun in H. simpl in H. now subst w'.
Qed.

(** * Further properties of the feature maps *)

(** ** Ranks and order *)

Lemma count_le_perm (x : R) (a b : list R) :
  Permutation a b -> count_le x a = count_le x b.
Proof.
  induction 1; rewrite ?count_le_cons; lia.
Qed.

Lemma count_lt_map (f : R -> R) (a : list R) (x : R) :
  (forall y, In y a -> (f y < f x <-> y < x)) ->
  count_lt (f x) (map f a) = count_lt x a.
Proof.
  induction a as [|z a IH]; intros H; [reflexivity|].
  simpl map. rewrite !count_lt_cons, IH by (intros; apply H; now right).
  pose proof (H z (or_introl eq_refl)) as Hz.
  destruct (Rltb (f z) (f x)) eqn:E1; destruct (Rltb z x) eqn:E2;
    try reflexivity.
  - apply Rltb_true in E1. apply Rltb_false in E2. apply Hz in E1. lra.
  - apply Rltb_false in E1. apply Rltb_true in E2. apply Hz in E2. lra.
Qed.

Lemma count_le_map (f : R -> R) (a : list R) (x : R) :
  (forall y, In y a -> (f y <= f x <-> y <= x)) ->
  count_le (f x) (map f a) = count_le x a.
Proof.
  induction a as [|z a IH]; intros H; [reflexivity|].
  simpl map. rewrite !count_le_cons, IH by (intros; apply H; now right).
  pose proof (H z (or_introl eq_refl)) as Hz.
  destruct (Rleb (f z) (f x)) eqn:E1; destruct (Rleb z x) eqn:E2;
    try reflexivity.
  - apply Rleb_true in E1. apply Rleb_false in E2. apply Hz in E1. lra.
  - apply Rleb_false in E1. apply Rleb_true in E2. apply Hz in E2. lra.
Qed.

(** The ranks see the order of the entries only: a map that keeps the
    order of the entries of [a] keeps their ranks. *)
Lemma rankdata_map_increasing (f : R -> R) (a : list R) :
  (forall x y, In x a -> In y a -> x < y -> f x < f y) ->
  rankdata (map f a) = rankdata a.
Proof.
  intros Hf. unfold rankdata. rewrite map_map. apply map_ext_in.
  intros x Hx.
  assert (Hlt : forall y, In y a -> (f y < f x <-> y < x)).
  { intros y Hy. split; [|now apply Hf].
    intros H. destruct (Rlt_dec y x) as [|Hn]; [assumption|].
    destruct (Req_dec_T x y) as [->|Hne]; [lra|].
    assert (x < y) by lra. pose proof (Hf x y Hx Hy H0). lra. }
  assert (Hle : forall y, In y a -> (f y <= f x <-> y <= x)).
  { intros y Hy. split.
    - intros H. destruct (Rle_dec y x) as [|Hn]; [assumption|].
      assert (x < y) by lra. pose proof (Hf x y Hx Hy H0). lra.
    - intros [H| ->]; [left; now apply Hf | right; reflexivity]. }
  now rewrite count_lt_map, count_le_map.
Qed.

Lemma count_le_below (x y : R) (a : list R) :
  x < y -> (count_le x a <= count_lt y a)%nat.
Proof.
  intros Hxy. induction a as [|z a IH]; [reflexivity|].
  rewrite count_le_cons, count_lt_cons. compare_reals; lia.
Qed.

(** Two entries of different value are at least one rank apart. *)
Lemma rank_gap (x y : R) (a : list R) :
  In x a -> In y a -> x < y ->
  0.5 * (INR (count_le x a) + INR (count_lt x a) + 1) + 1
  <= 0.5 * (INR (count_le y a) + INR (count_lt y a) + 1).
Proof.
  intros Hx Hy Hxy.
  pose proof (count_le_below x y a Hxy) as H1.
  pose proof (count_eq_In x a Hx) as H2.
  pose proof (count_eq_In y a Hy) as H3.
  pose proof (count_le_split x a) as H4.
  pose proof (count_le_split y a) as H5.
  assert (Ha : (count_lt x a + 1 <= count_lt y a)%nat) by lia.
  assert (Hb : (count_le x a + 1 <= count_le y a)%nat) by lia.
  apply le_INR in Ha, Hb. rewrite plus_INR in Ha, Hb.
  change (INR 1) with 1 in *. lra.
Qed.

Lemma nth_map_in {T U} (g : T -> U) (l : list T) (i : nat) (d : T) (e : U) :
  (i < length l)%nat -> nth i (map g l) e = g (nth i l d).
Proof.
  intros Hi. rewrite (nth_indep _ e (g d)) by now rewrite length_map.
  apply map_nth.
Qed.

(** An entry of the result of [MarginalCDFMap.gen_features], from the
    columns the loop writes. *)
Lemma cdf_entry (A Z : ndarray) (i j : nat) :
  wf_ndarray A -> (i < nrows A)%nat ->
  col Z j = div_vector (rankdata (col A j)) (INR (nrows A)) ->
  entry Z i j
  = 0.5 * (INR (count_le (entry A i j) (col A j))
           + INR (count_lt (entry A i j) (col A j)) + 1) / INR (nrows A).
Proof.
  intros HA Hi Hcol. rewrite <- nth_col, Hcol.
  unfold div_vector, rankdata. rewrite map_map.
  rewrite (nth_map_in _ _ _ 0) by (rewrite col_length; now rewrite (proj1 HA)).
  now rewrite nth_col.
Qed.

Lemma entry_In_col (A : ndarray) (i j : nat) :
  wf_ndarray A -> (i < nrows A)%nat -> In (entry A i j) (col A j).
Proof.
  intros HA Hi. rewrite <- nth_col. apply nth_In.
  rewrite col_length. now rewrite (proj1 HA).
Qed.

(** [MarginalCDFMap.gen_features] keeps the order within a column, ties
    included: two entries of a column have equal features exactly when they
    have equal values, and the feature of one is below the feature of the
    other exactly when its value is below the value of the other. *)
Theorem MarginalCDFMap_gen_features_order (w : World) (self X : ref)
    (A : ndarray) :
  nth_error (heap w) self = Some MarginalCDFMap ->
  nth_error (heap w) X = Some (Ndarray A) -> wf_ndarray A ->
  exists Z,
    gen_features self X w = (Return Z, w) /\
    forall i i' j,
      (i < nrows A)%nat -> (i' < nrows A)%nat -> (j < ncols A)%nat ->
      (entry A i j = entry A i' j <-> entry Z i j = entry Z i' j) /\
      (entry A i j < entry A i' j <-> entry Z i j < entry Z i' j).
Proof.
  intros Hself HX HA.
  destruct (MarginalCDFMap_gen_features_run w self X A HX HA)
    as (Z & Hrun & _ & _ & Hcol).
  exists Z. rewrite (gen_features_MarginalCDFMap w self X Hself).
  split; [assumption|]. intros i i' j Hi Hi' Hj.
  rewrite (cdf_entry A Z i j HA Hi (Hcol j Hj)).
  rewrite (cdf_entry A Z i' j HA Hi' (Hcol j Hj)).
  assert (Hn : 0 < / INR (nrows A)).
  { apply Rinv_0_lt_compat, lt_0_INR. lia. }
  assert (Hup : forall x y, In x (col A j) -> In y (col A j) -> x < y ->
    0.5 * (INR (count_le x (col A j)) + INR (count_lt x (col A j)) + 1)
    / INR (nrows A)
    < 0.5 * (INR (count_le y (col A j)) + INR (count_lt y (col A j)) + 1)
      / INR (nrows A)).
  { intros x y Hx Hy Hxy. pose proof (rank_gap x y (col A j) Hx Hy Hxy).
    unfold Rdiv. apply Rmult_lt_compat_r; [exact Hn | lra]. }
  pose proof (entry_In_col A i j HA Hi) as Hin.
  pose proof (entry_In_col A i' j HA Hi') as Hin'.
  split; split.
  - now intros ->.
  - intros Heq.
    destruct (Rtotal_order (entry A i j) (entry A i' j)) as [H|[H|H]];
      [|exact H|].
    + pose proof (Hup _ _ Hin Hin' H). lra.
    + pose proof (Hup _ _ Hin' Hin H). lra.
  - now apply Hup.
  - intros Hlt.
    destruct (Rtotal_order (entry A i j) (entry A i' j)) as [H|[H|H]];
      [exact H| |].
    + rewrite H in Hlt. lra.
    + pose proof (Hup _ _ Hin' Hin H). lra.
Qed.

(** [MarginalCDFMap.gen_features] is the empirical distribution function
    of the column, corrected for ties: the feature of an entry x is the
    number of entries of its column that are not above x, less half the
    number of the other entries equal to x, divided by n.  Where the value of
    an entry stands once in its column, its feature is the fraction of the
    column that is not above it. *)
Theorem MarginalCDFMap_gen_features_empirical_cdf (w : World) (self X : ref)
    (A : ndarray) :
  nth_error (heap w) self = Some MarginalCDFMap ->
  nth_error (heap w) X = Some (Ndarray A) -> wf_ndarray A ->
  exists Z,
    gen_features self X w = (Return Z, w) /\
    forall i j, (i < nrows A)%nat -> (j < ncols A)%nat ->
      let x := entry A i j in
      entry Z i j
      = (INR (count_le x (col A j)) - (INR (count_eq x (col A j)) - 1) / 2)
        / INR (nrows A) /\
      (count_eq x (col A j) = 1%nat ->
       entry Z i j = INR (count_le x (col A j)) / INR (nrows A)).
Proof.
  intros Hself HX HA.
  destruct (MarginalCDFMap_gen_features_run w self X A HX HA)
    as (Z & Hrun & _ & _ & Hcol).
  exists Z. rewrite (gen_features_MarginalCDFMap w self X Hself).
  split; [assumption|]. intros i j Hi Hj x.
  rewrite (cdf_entry A Z i j HA Hi (Hcol j Hj)). fold x.
  assert (Hlt : INR (count_lt x (col A j))
                = INR (count_le x (col A j)) - INR (count_eq x (col A j))).
  { rewrite (count_le_split x (col A j)), plus_INR. lra. }
  rewrite Hlt.
  assert (Hform :
    0.5 * (INR (count_le x (col A j))
           + (INR (count_le x (col A j)) - INR (count_eq x (col A j))) + 1)
    = INR (count_le x (col A j)) - (INR (count_eq x (col A j)) - 1) / 2)
    by lra.
  rewrite Hform. split; [reflexivity|].
  intros ->. change (INR 1) with 1. f_equal. lra.
Qed.

(** ** Arrays with the same columns *)

Lemma ndarray_ext_cols (Z Z' : ndarray) :
  wf_ndarray Z -> wf_ndarray Z' -> shape Z = shape Z' ->
  (forall j, (j < ncols Z)%nat -> col Z j = col Z' j) ->
  Z = Z'.
Proof.
  intros HZ HZ' Hsh Hcol.
  pose proof (wf_tabulate Z HZ) as HdZ.
  pose proof (wf_tabulate Z' HZ') as HdZ'.
  unfold nrows, ncols in *. rewrite <- Hsh in HdZ'.
  assert (Hd : data Z = data Z').
  { rewrite HdZ, HdZ'. apply tabulate_ext. intros i j _ Hj.
    now rewrite <- !nth_col, (Hcol j Hj). }
  destruct Z, Z'. simpl in *. now subst.
Qed.

(** What [MarginalCDFMap.gen_features] returns on two arrays of the same
    shape whose columns have the same ranks. *)
Lemma MarginalCDFMap_same_ranks (w w' : World) (self self' X X' : ref)
    (A A' : ndarray) :
  nth_error (heap w) X = Some (Ndarray A) -> wf_ndarray A ->
  nth_error (heap w') X' = Some (Ndarray A') -> wf_ndarray A' ->
  shape A' = shape A ->
  (forall j, (j < ncols A)%nat -> rankdata (col A' j) = rankdata (col A j)) ->
  exists Z,
    MarginalCDFMap_gen_features self X w = (Return Z, w) /\
    MarginalCDFMap_gen_features self' X' w' = (Return Z, w') /\
    wf_ndarray Z /\ shape Z = shape A /\
    forall j, (j < ncols A)%nat ->
              col Z j = div_vector (rankdata (col A j)) (INR (nrows A)).
Proof.
  intros HX HA HX' HA' Hsh Hranks.
  destruct (MarginalCDFMap_gen_features_run w self X A HX HA)
    as (Z & Hrun & HZ & HshZ & Hcol).
  destruct (MarginalCDFMap_gen_features_run w' self' X' A' HX' HA')
    as (Z' & Hrun' & HZ' & HshZ' & Hcol').
  exists Z. split; [assumption|]. split; [|auto].
  rewrite Hrun'. do 2 f_equal. symmetry.
  apply ndarray_ext_cols; auto; [congruence|].
  intros j Hj. unfold ncols in Hj. rewrite HshZ in Hj. fold (ncols A) in Hj.
  rewrite (Hcol j Hj), Hcol'.
  - unfold nrows. rewrite Hsh. now rewrite Hranks.
  - unfold ncols. now rewrite Hsh.
Qed.

(** [MarginalCDFMap.gen_features] does not see a strictly increasing change
    of scale of a column: if every column of X' is the same column of X
    under a strictly increasing function (one function per column), then
    the features of X' are the features of X. *)
Theorem MarginalCDFMap_gen_features_increasing_invariant (w w' : World)
    (self self' X X' : ref) (A A' : ndarray) :
  nth_error (heap w) self = Some MarginalCDFMap ->
  nth_error (heap w') self' = Some MarginalCDFMap ->
  nth_error (heap w) X = Some (Ndarray A) -> wf_ndarray A ->
  nth_error (heap w') X' = Some (Ndarray A') -> wf_ndarray A' ->
  shape A' = shape A ->
  (forall j, (j < ncols A)%nat ->
     exists f : R -> R,
       (forall x y, x < y -> f x < f y) /\ col A' j = map f (col A j)) ->
  exists Z,
    gen_features self X w = (Return Z, w) /\
    gen_features self' X' w' = (Return Z, w').
Proof.
  intros Hself Hself' HX HA HX' HA' Hsh Hf.
  destruct (MarginalCDFMap_same_ranks w w' self self' X X' A A'
              HX HA HX' HA' Hsh) as (Z & Hrun & Hrun' & _).
  - intros j Hj. destruct (Hf j Hj) as (f & Hinc & ->).
    apply rankdata_map_increasing. intros x y _ _. apply Hinc.
  - exists Z.
    rewrite (gen_features_MarginalCDFMap w self X Hself).
    rewrite (gen_features_MarginalCDFMap w' self' X' Hself').
    now split.
Qed.

(** [MarginalCDFMap.gen_features] is idempotent: on an array that it has
    returned, it returns that array again. *)
Theorem MarginalCDFMap_gen_features_idempotent (w w' : World)
    (self self' X Y : ref) (A Z : ndarray) :
  nth_error (heap w) self = Some MarginalCDFMap ->
  nth_error (heap w) X = Some (Ndarray A) -> wf_ndarray A ->
  gen_features self X w = (Return Z, w) ->
  nth_error (heap w') self' = Some MarginalCDFMap ->
  nth_error (heap w') Y = Some (Ndarray Z) ->
  gen_features self' Y w' = (Return Z, w').
Proof.
  intros Hself HX HA Hfirst Hself' HY.
  destruct (MarginalCDFMap_gen_features_run w self X A HX HA)
    as (Z0 & Hrun & HZ & HshZ & Hcol).
  rewrite (gen_features_MarginalCDFMap w self X Hself), Hrun in Hfirst.
  assert (Z0 = Z) by congruence. subst Z0.
  destruct (MarginalCDFMap_same_ranks w w' self self' X Y A Z
              HX HA HY HZ HshZ) as (Z1 & Hrun1 & Hrun2 & _).
  - intros j Hj. rewrite (Hcol j Hj).
    assert (E : div_vector (rankdata (col A j)) (INR (nrows A))
                = map (fun x => 0.5 * (INR (count_le x (col A j))
                                       + INR (count_lt x (col A j)) + 1)
                                / INR (nrows A)) (col A j)).
    { unfold div_vector, rankdata. now rewrite map_map. }
    rewrite E. apply rankdata_map_increasing.
    intros x y Hx Hy Hxy.
    pose proof (rank_gap x y (col A j) Hx Hy Hxy) as Hgap.
    assert (Hn : 0 < INR (nrows A)).
    { apply lt_0_INR. destruct HA as [<- _]. rewrite <- (col_length A j).
      destruct (col A j); [destruct Hx | simpl; lia]. }
    unfold Rdiv. apply Rmult_lt_compat_r; [now apply Rinv_0_lt_compat|lra].
  - rewrite (gen_features_MarginalCDFMap w' self' Y Hself').
    rewrite Hrun in Hrun1. congruence.
Qed.

(** ** The order of the rows *)

Lemma combine_map {T U} (F : T -> U) (l : list T) :
  combine l (map F l) = map (fun r => (r, F r)) l.
Proof.
  induction l as [|r l IH]; simpl; [reflexivity | now rewrite IH].
Qed.

(** The result of [MarginalCDFMap.gen_features] row by row: the features
    of a row are read off the row and the columns of the whole array. *)
Lemma MarginalCDFMap_rows (A Z : ndarray) :
  wf_ndarray A -> wf_ndarray Z -> shape Z = shape A ->
  (forall j, (j < ncols A)%nat ->
             col Z j = div_vector (rankdata (col A j)) (INR (nrows A))) ->
  data Z
  = map (fun r =>
           map (fun j => 0.5 * (INR (count_le (nth j r 0) (col A j))
                                + INR (count_lt (nth j r 0) (col A j)) + 1)
                         / INR (nrows A))
               (seq 0 (ncols A)))
        (data A).
Proof.
  intros HA HZ Hsh Hcol.
  rewrite (wf_tabulate Z HZ). unfold nrows at 1, ncols at 1. rewrite Hsh.
  fold (nrows A) (ncols A). unfold tabulate.
  rewrite (list_as_map_nth (data A) []) at 1.
  rewrite (proj1 HA), map_map.
  apply map_ext_in. intros i Hi. apply in_seq in Hi.
  apply map_ext_in. intros j Hj. apply in_seq in Hj.
  rewrite (cdf_entry A Z i j HA) by (try apply Hcol; lia).
  reflexivity.
Qed.

(** [MarginalCDFMap.gen_features] does not see the order of the rows: when
    the rows of X' are the rows of X in another order, every row receives
    the features it receives in X, so the pairs of a row and its features
    are the same for X and X' up to that order. *)
Theorem MarginalCDFMap_gen_features_row_order (w w' : World)
    (self self' X X' : ref) (A A' : ndarray) :
  nth_error (heap w) self = Some MarginalCDFMap ->
  nth_error (heap w') self' = Some MarginalCDFMap ->
  nth_error (heap w) X = Some (Ndarray A) -> wf_ndarray A ->
  nth_error (heap w') X' = Some (Ndarray A') -> wf_ndarray A' ->
  shape A' = shape A -> Permutation (data A) (data A') ->
  exists Z Z',
    gen_features self X w = (Return Z, w) /\
    gen_features self' X' w' = (Return Z', w') /\
    Permutation (combine (data A) (data Z)) (combine (data A') (data Z')).
Proof.
  intros Hself Hself' HX HA HX' HA' Hsh Hperm.
  destruct (MarginalCDFMap_gen_features_run w self X A HX HA)
    as (Z & Hrun & HZ & HshZ & Hcol).
  destruct (MarginalCDFMap_gen_features_run w' self' X' A' HX' HA')
    as (Z' & Hrun' & HZ' & HshZ' & Hcol').
  exists Z, Z'.
  rewrite (gen_features_MarginalCDFMap w self X Hself).
  rewrite (gen_features_MarginalCDFMap w' self' X' Hself').
  split; [assumption|]. split; [assumption|].
  rewrite (MarginalCDFMap_rows A Z HA HZ HshZ Hcol).
  rewrite (MarginalCDFMap_rows A' Z' HA' HZ' HshZ' Hcol').
  assert (Hcols : forall j, Permutation (col A j) (col A' j)).
  { intros j. unfold col. now apply Permutation_map. }
  unfold nrows, ncols. rewrite Hsh. fold (nrows A) (ncols A).
  rewrite (map_ext
             (fun r => map (fun j =>
                0.5 * (INR (count_le (nth j r 0) (col A' j))
                       + INR (count_lt (nth j r 0) (col A' j)) + 1)
                / INR (nrows A)) (seq 0 (ncols A)))
             (fun r => map (fun j =>
                0.5 * (INR (count_le (nth j r 0) (col A j))
                       + INR (count_lt (nth j r 0) (col A j)) + 1)
                / INR (nrows A)) (seq 0 (ncols A)))).
  - rewrite !combine_map. now apply Permutation_map.
  - intros r. apply map_ext. intros j.
    now rewrite <- (count_le_perm _ _ _ (Hcols j)),
                <- (count_lt_perm _ _ _ (Hcols j)).
Qed.

(** ** Sums *)

Lemma sum_upto_const (m : nat) (c : R) :
  sum_upto m (fun _ => c) = INR m * c.
Proof.
  induction m as [|m IH]; [simpl; lra|].
  rewrite S_INR. simpl. rewrite IH. lra.
Qed.

(** ** The rows of the random Fourier features *)

Lemma spec_features_row (o : RFFKGauss) (A : ndarray) (i : nat) :
  (i < nrows A)%nat ->
  nth i (data (spec_features o A)) []
  = map (spec_Z o A i) (seq 0 (Z.to_nat (n_features o))).
Proof.
  intros Hi. simpl. unfold tabulate. now rewrite nth_map_seq.
Qed.

(** The features of a point do not depend on the other points of the array:
    a row that stands in two arrays of the same width receives the same
    features in both. *)
Theorem RFFKGauss_gen_features_row_by_row (w w' : World)
    (self self' X X' : ref) (s2 : R) (nf : Z) (sd : option Z)
    (o : RFFKGauss) (A A' : ndarray) (i i' : nat) :
  RFFKGauss_init s2 nf sd = Return o ->
  nth_error (heap w) self = Some (RFFKGaussObj o) ->
  nth_error (heap w') self' = Some (RFFKGaussObj o) ->
  nth_error (heap w) X = Some (Ndarray A) -> wf_ndarray A ->
  nth_error (heap w') X' = Some (Ndarray A') -> wf_ndarray A' ->
  ncols A' = ncols A ->
  (i < nrows A)%nat -> (i' < nrows A')%nat ->
  nth i' (data A') [] = nth i (data A) [] ->
  exists Z Z',
    gen_features self X w = (Return Z, w) /\
    gen_features self' X' w' = (Return Z', w') /\
    nth i' (data Z') [] = nth i (data Z) [].
Proof.
  intros Hinit Hself Hself' HX HA HX' HA' Hd Hi Hi' Hrow.
  exists (spec_features o A), (spec_features o A').
  split; [now apply (gen_features_RFFKGauss_run w self X s2 nf sd)|].
  split; [now apply (gen_features_RFFKGauss_run w' self' X' s2 nf sd)|].
  rewrite !spec_features_row by assumption.
  apply map_ext. intros k. unfold spec_Z, spec_P. rewrite Hd.
  unfold entry. now rewrite Hrow.
Qed.

(** ** Instances that the constructor has not checked *)

(** The array computations of [gen_features] after the draws, for any
    number of draws. *)
Lemma features_any (o : RFFKGauss) (A : ndarray) :
  let draws := Z.to_nat (n_features o / 2) in
  let XWT := {| shape := (nrows A, draws);
                data := tabulate (nrows A) draws (spec_P o A) |} in
  exists H,
    np_hstack (np_cos XWT) (np_sin XWT) = Return H /\
    mul_scalar H (sqrt (2 / IZR (n_features o)))
    = {| shape := (nrows A, (draws + draws)%nat);
         data := tabulate (nrows A) (draws + draws) (spec_Z o A) |}.
Proof.
  intros draws XWT. unfold np_hstack.
  change (nrows (np_cos XWT)) with (nrows A).
  change (nrows (np_sin XWT)) with (nrows A).
  rewrite Nat.eqb_refl. eexists. split; [reflexivity|].
  unfold mul_scalar, np_cos, np_sin, XWT, ncols.
  cbn [shape data snd fst].
  rewrite !map_tabulate, zip_rows_tabulate, map_tabulate. f_equal.
  apply tabulate_ext. intros i k _ _. unfold spec_Z. fold draws.
  destruct (k <? draws)%nat; ring.
Qed.

Lemma RFFKGauss_gen_features_run_any (w : World) (self X : ref)
    (o : RFFKGauss) (A : ndarray) :
  nth_error (heap w) self = Some (RFFKGaussObj o) ->
  nth_error (heap w) X = Some (Ndarray A) ->
  wf_ndarray A -> (0 < n_features o)%Z ->
  RFFKGauss_gen_features self X w
  = (Return {| shape := (nrows A,
                         (Z.to_nat (n_features o / 2)
                          + Z.to_nat (n_features o / 2))%nat);
               data := tabulate (nrows A)
                         (Z.to_nat (n_features o / 2)
                          + Z.to_nat (n_features o / 2))
                         (spec_Z o A) |}, w).
Proof.
  intros Hself HX HA Hpos.
  assert (Hnf : (0 <= n_features o / 2)%Z) by (apply Z.div_pos; lia).
  destruct (features_any o A) as (H & Hstack & Hmul).
  unfold RFFKGauss_gen_features.
  rewrite (bind_Return _ _ _ _ _ (getattr_run w self o seed Hself)).
  erewrite bind_Return; [|apply with_NumpySeedContext_body].
  2:{ set (w1 := {| np_random := _; heap := heap w |}).
      rewrite (bind_Return _ _ w1 _ _ (load_ndarray_run w1 X A HX)).
      rewrite (surjective_pairing (shape A)). fold (nrows A) (ncols A).
      rewrite (bind_Return _ _ w1 _ _
                 (getattr_run w1 self o n_features Hself)).
      rewrite (bind_Return _ _ w1 _ _
                 (np_random_randn_run _ (ncols A) w1 Hnf)).
      set (w2 := {| np_random := _; heap := heap w1 |}).
      rewrite (bind_Return _ _ w2 _ _ (getattr_run w2 self o sigma2 Hself)).
      rewrite (bind_Return _ _ w2 _ _ (load_ndarray_run w2 X A HX)).
      unfold w1 at 1. cbn [np_random].
      rewrite (projection_spec o A HA). unfold lift at 1, bind at 1.
      rewrite Hstack. unfold lift at 1, bind at 1.
      rewrite (bind_Return _ _ w2 _ _
                 (getattr_run w2 self o n_features Hself)).
      unfold truediv. rewrite (proj2 (Z.eqb_neq _ 0)) by lia.
      unfold lift at 1, bind at 1.
      unfold ret. rewrite Hmul. reflexivity. }
  unfold ret. destruct w; reflexivity.
Qed.

(** [RFFKGauss.gen_features] returns 2 (n_features // 2) columns, for any
    instance whose [sigma2] and [n_features] are positive, checked by the
    constructor or not: as many as [num_features] returns when [n_features]
    is even, and one less when it is odd. *)
Theorem RFFKGauss_gen_features_width (w : World) (self X : ref)
    (o : RFFKGauss) (A : ndarray) :
  nth_error (heap w) self = Some (RFFKGaussObj o) ->
  nth_error (heap w) X = Some (Ndarray A) -> wf_ndarray A ->
  0 < sigma2 o -> (0 < n_features o)%Z ->
  exists Z,
    gen_features self X w = (Return Z, w) /\
    num_features self (Some X) w = (Return (n_features o), w) /\
    wf_ndarray Z /\ nrows Z = nrows A /\
    Z.of_nat (ncols Z) = (2 * (n_features o / 2))%Z /\
    (Z.even (n_features o) = true -> Z.of_nat (ncols Z) = n_features o) /\
    (Z.even (n_features o) = false ->
     Z.of_nat (ncols Z) = (n_features o - 1)%Z).
Proof.
  intros Hself HX HA _ Hpos.
  assert (Hnf : (0 <= n_features o / 2)%Z) by (apply Z.div_pos; lia).
  eexists. rewrite (gen_features_RFFKGauss w self X o Hself).
  split; [exact (RFFKGauss_gen_features_run_any w self X o A
                   Hself HX HA Hpos)|].
  split.
  { unfold num_features, RFFKGauss_num_features. rewrite Hself.
    now apply getattr_run. }
  split; [split; simpl; [apply tabulate_length | apply tabulate_row_length]|].
  split; [reflexivity|].
  unfold ncols. cbn [shape snd].
  pose proof (Z.div_mod (n_features o) 2 ltac:(lia)) as Hdiv.
  rewrite Zmod_even in Hdiv.
  set (q := (n_features o / 2)%Z) in *.
  split; [lia|].
  split; intros He; rewrite He in Hdiv; lia.
Qed.

(** When [n_features] of an instance is 0, which the constructor rules out
    and a later assignment does not, [RFFKGauss.gen_features] makes no draw
    and raises the ZeroDivisionError of 2.0 / n_features, on any array, and
    the state of the generator and the objects are as before the call. *)
Theorem RFFKGauss_gen_features_zero (w : World) (self X : ref)
    (o : RFFKGauss) (A : ndarray) :
  nth_error (heap w) self = Some (RFFKGaussObj o) ->
  nth_error (heap w) X = Some (Ndarray A) ->
  n_features o = 0%Z ->
  gen_features self X w = (Raise ZeroDivisionError, w).
Proof.
  intros Hself HX Hzero.
  assert (Hdraws : (0 <= 0 / 2)%Z) by (apply Z.div_pos; lia).
  rewrite (gen_features_RFFKGauss w self X o Hself).
  unfold RFFKGauss_gen_features.
  rewrite (bind_Return _ _ _ _ _ (getattr_run w self o seed Hself)).
  unfold bind at 1.
  erewrite with_NumpySeedContext_body.
  2:{ set (w1 := {| np_random := _; heap := heap w |}).
      rewrite (bind_Return _ _ w1 _ _ (load_ndarray_run w1 X A HX)).
      rewrite (surjective_pairing (shape A)). fold (nrows A) (ncols A).
      rewrite (bind_Return _ _ w1 _ _
                 (getattr_run w1 self o n_features Hself)).
      rewrite Hzero.
      rewrite (bind_Return _ _ w1 _ _
                 (np_random_randn_run (0 / 2) (ncols A) w1 Hdraws)).
      set (w2 := {| np_random := _; heap := heap w1 |}).
      rewrite (bind_Return _ _ w2 _ _ (getattr_run w2 self o sigma2 Hself)).
      rewrite (bind_Return _ _ w2 _ _ (load_ndarray_run w2 X A HX)).
      unfold np_dot, transpose, div_scalar, nrows, ncols. cbn [shape fst snd].
      rewrite Nat.eqb_refl. unfold lift at 1, bind at 1.
      unfold np_hstack, np_cos, np_sin, nrows. cbn [shape fst snd].
      rewrite Nat.eqb_refl. unfold lift at 1, bind at 1.
      rewrite (bind_Return _ _ w2 _ _
                 (getattr_run w2 self o n_features Hself)).
      rewrite Hzero. unfold bind, lift, truediv. simpl. reflexivity. }
  destruct w; reflexivity.
Qed.

(** When [n_features] of an instance is negative, which the constructor
    rules out and a later assignment does not, [RFFKGauss.gen_features]
    raises the ValueError of the draw, on any array, and the state of the
    generator and the objects are as before the call. *)
Theorem RFFKGauss_gen_features_negative (w : World) (self X : ref)
    (o : RFFKGauss) (A : ndarray) :
  nth_error (heap w) self = Some (RFFKGaussObj o) ->
  nth_error (heap w) X = Some (Ndarray A) ->
  (n_features o < 0)%Z ->
  gen_features self X w = (Raise ValueError, w).
Proof.
  intros Hself HX Hneg.
  assert (Hnf : (n_features o / 2 <? 0)%Z = true).
  { apply Z.ltb_lt. apply Z.div_lt_upper_bound; lia. }
  rewrite (gen_features_RFFKGauss w self X o Hself).
  unfold RFFKGauss_gen_features.
  rewrite (bind_Return _ _ _ _ _ (getattr_run w self o seed Hself)).
  unfold bind at 1.
  erewrite with_NumpySeedContext_body.
  2:{ set (w1 := {| np_random := _; heap := heap w |}).
      rewrite (bind_Return _ _ w1 _ _ (load_ndarray_run w1 X A HX)).
      rewrite (surjective_pairing (shape A)).
      rewrite (bind_Return _ _ w1 _ _
                 (getattr_run w1 self o n_features Hself)).
      unfold bind at 1, np_random_randn. rewrite Hnf. reflexivity. }
  destruct w; reflexivity.
Qed.

(** ** The origin *)

(** A row of zeros, and so every row of an array without columns, receives
    sqrt(2 / n_features) in the cosine half and 0 in the sine half, whatever
    the bandwidth and the seed. *)
Theorem RFFKGauss_gen_features_origin (w : World) (self X : ref) (s2 : R)
    (nf : Z) (sd : option Z) (o : RFFKGauss) (A : ndarray) :
  RFFKGauss_init s2 nf sd = Return o ->
  nth_error (heap w) self = Some (RFFKGaussObj o) ->
  nth_error (heap w) X = Some (Ndarray A) -> wf_ndarray A ->
  exists Z,
    gen_features self X w = (Return Z, w) /\
    forall i, (i < nrows A)%nat ->
      (forall j, (j < ncols A)%nat -> entry A i j = 0) ->
      forall k, (k < Z.to_nat nf)%nat ->
        entry Z i k
        = if (k <? Z.to_nat (nf / 2))%nat then sqrt (2 / IZR nf) else 0.
Proof.
  intros Hinit Hself HX HA. exists (spec_features o A).
  split; [now apply (gen_features_RFFKGauss_run w self X s2 nf sd)|].
  apply RFFKGauss_init_Return in Hinit as (_ & _ & _ & _ & Hnf & _).
  intros i Hi Hzero k Hk. unfold entry. simpl.
  rewrite tabulate_nth by (try assumption; now rewrite Hnf).
  assert (HP : forall k', spec_P o A i k' = 0).
  { intros k'. unfold spec_P.
    rewrite (sum_upto_ext _ _ (fun _ => 0)).
    - rewrite sum_upto_const. ring.
    - intros j Hj. rewrite (Hzero j Hj). ring. }
  unfold spec_Z. rewrite !HP, Hnf, cos_0, sin_0.
  destruct (k <? _)%nat; ring.
Qed.

(** ** The largest entry of the first column of the example *)

Lemma example_X_top_count :
  count_eq (entry example_X 2 0) (col example_X 0) = 1%nat.
Proof.
  unfold entry, col, example_X. simpl.
  rewrite !count_eq_cons. compare_reals. reflexivity.
Qed.
End FeatureMaps.

Arguments np_random {G} w.
Arguments heap {G} w.
Arguments gen_features {G} self X w.
Arguments num_features {G} self X w.
Arguments FeatureMap_call {G} self X w.
Arguments MarginalCDFMap_gen_features {G} self X w.
Arguments RFFKGauss_gen_features {G} self X w.
Arguments with_NumpySeedContext {G A} seed body w.
Arguments np_random_randn {G} m d w.
Arguments raise {G A} e w.

(** * The claims on concrete objects

    The world of the examples: the generator has made 7 draws; X is at
    reference 0, a MarginalCDFMap at 1 and two RFFKGauss instances of the
    same configuration at 2 and 3. *)

Lemma example_X_wf : wf_ndarray example_X.
Proof. split; [reflexivity | repeat constructor]. Qed.

Lemma tied_X_wf : wf_ndarray tied_X.
Proof. split; [reflexivity | repeat constructor]. Qed.

Lemma example_map_init : RFFKGauss_init 1 4 None = Return example_map.
Proof.
  unfold RFFKGauss_init. destruct (Rle_dec 1 0); [lra | reflexivity].
Qed.

Lemma gen_features_deterministic_witness :
  heap (mk_World counting_generator 99%nat example_heap)
  = heap (mk_World counting_generator 7%nat example_heap) /\
  fst (gen_features 2 0 (mk_World counting_generator 99%nat example_heap))
  = fst (gen_features 2 0 (mk_World counting_generator 7%nat example_heap)) /\
  exists Z,
    gen_features 2 0 (mk_World counting_generator 7%nat example_heap)
    = (Return Z, mk_World counting_generator 7%nat example_heap) /\
    gen_features 3 0 (mk_World counting_generator 7%nat example_heap)
    = (Return Z, mk_World counting_generator 7%nat example_heap).
Proof.
  pose proof (gen_features_deterministic counting_generator
                (mk_World counting_generator 7%nat example_heap) 2 0)
    as (_ & Hany & Htwo).
  split; [reflexivity|]. split.
  - apply Hany. reflexivity.
  - apply (Htwo 3%nat 1 4%Z None example_map example_map example_X).
    + exact example_map_init.
    + exact example_map_init.
    + reflexivity.
    + reflexivity.
    + reflexivity.
    + exact example_X_wf.
Defined.

Lemma gen_features_shape_witness :
  nth_error example_heap 0 = Some (Ndarray example_X) /\
  wf_ndarray example_X /\
  RFFKGauss_init 1 4 None = Return example_map /\
  nth_error example_heap 2 = Some (RFFKGaussObj example_map) /\
  exists Z D,
    gen_features 2 0 (mk_World counting_generator 7%nat example_heap)
    = (Return Z, mk_World counting_generator 7%nat example_heap) /\
    num_features 2 (Some 0%nat)
      (mk_World counting_generator 7%nat example_heap)
    = (Return D, mk_World counting_generator 7%nat example_heap) /\
    nrows Z = 3%nat /\ Z.of_nat (ncols Z) = D /\ D = 4%Z.
Proof.
  split; [reflexivity|]. split; [exact example_X_wf|].
  split; [exact example_map_init|]. split; [reflexivity|].
  destruct (gen_features_shape counting_generator
              (mk_World counting_generator 7%nat example_heap) 2 0 example_X
              eq_refl example_X_wf
              (or_intror
                 (ex_intro _ 1 (ex_intro _ 4%Z (ex_intro _ None
                    (ex_intro _ example_map
                       (conj example_map_init eq_refl)))))))
    as (Z & D & Hrun & Hnum & _ & Hrows & Hcols & _ & HD).
  exists Z, D. repeat split; auto.
  exact (HD example_map eq_refl).
Defined.

Lemma MarginalCDFMap_gen_features_average_rank_witness :
  nth_error example_heap 1 = Some MarginalCDFMap /\
  nth_error example_heap 0 = Some (Ndarray example_X) /\
  wf_ndarray example_X /\
  exists Z,
    gen_features 1 0 (mk_World counting_generator 7%nat example_heap)
    = (Return Z, mk_World counting_generator 7%nat example_heap) /\
    col Z 0 = [0.5; 0.5; 1].
Proof.
  split; [reflexivity|]. split; [reflexivity|]. split; [exact example_X_wf|].
  destruct (MarginalCDFMap_gen_features_average_rank counting_generator
              (mk_World counting_generator 7%nat example_heap) 1 0 example_X
              eq_refl eq_refl example_X_wf)
    as (Z & Hrun & _ & _ & _ & Hex).
  exists Z. split; [exact Hrun|].
  apply Hex; [unfold ncols; simpl; lia | reflexivity].
Defined.

Lemma RFFKGauss_gen_features_spec_witness :
  RFFKGauss_init 1 4 None = Return example_map /\
  nth_error example_heap 2 = Some (RFFKGaussObj example_map) /\
  nth_error example_heap 0 = Some (Ndarray example_X) /\
  wf_ndarray example_X /\
  RFFKGauss_gen_features 2 0 (mk_World counting_generator 7%nat example_heap)
  = (Return (spec_features counting_generator example_map example_X),
     mk_World counting_generator 7%nat example_heap).
Proof.
  split; [exact example_map_init|]. split; [reflexivity|].
  split; [reflexivity|]. split; [exact example_X_wf|].
  exact (proj1 (RFFKGauss_gen_features_spec counting_generator
                  (mk_World counting_generator 7%nat example_heap) 2 0
                  1 4%Z None example_map example_X
                  example_map_init eq_refl eq_refl example_X_wf)).
Defined.

Lemma RFFKGauss_num_features_is_n_features_witness :
  RFFKGauss_init 1 4 None = Return example_map /\
  nth_error example_heap 2 = Some (RFFKGaussObj example_map) /\
  num_features 2 None (mk_World counting_generator 7%nat example_heap)
  = (Return 4%Z, mk_World counting_generator 7%nat example_heap) /\
  num_features 2 (Some 0%nat)
    (mk_World counting_generator 7%nat example_heap)
  = (Return 4%Z, mk_World counting_generator 7%nat example_heap).
Proof.
  pose proof (RFFKGauss_num_features_is_n_features counting_generator
                (mk_World counting_generator 7%nat example_heap) 2)
    as [Hany Hfour].
  split; [exact example_map_init|]. split; [reflexivity|]. split.
  - exact (Hfour example_map None example_map_init eq_refl).
  - exact (Hany example_map (Some 0%nat) eq_refl).
Defined.

Lemma RFFKGauss_init_validation_witness :
  ~ (1 <= 0 \/ ~ (0 < 4 /\ Z.even 4 = true)%Z) /\
  RFFKGauss_init 1 4 None = Return example_map /\
  RFFKGauss_init 0 4 None = Raise ValueError /\
  RFFKGauss_init 1 3 None = Raise ValueError.
Proof.
  assert (Hok : ~ (1 <= 0 \/ ~ (0 < 4 /\ Z.even 4 = true)%Z)).
  { intros [H|H]; [lra|]. apply H. split; [lia | reflexivity]. }
  destruct (RFFKGauss_init_validation 1 4 None)
    as (_ & _ & _ & Hret & _ & _ & _).
  destruct (RFFKGauss_init_validation 0 4 None)
    as (_ & _ & _ & _ & Hzero & _ & _).
  destruct (RFFKGauss_init_validation 1 3 None)
    as (_ & _ & _ & _ & _ & Hodd & _).
  split; [exact Hok|]. split; [exact (Hret Hok)|].
  split; [exact Hzero | exact Hodd].
Defined.

Lemma RFFKGauss_gen_features_frame_witness :
  snd (RFFKGauss_gen_features 2 0
         (mk_World counting_generator 7%nat example_heap))
  = mk_World counting_generator 7%nat example_heap /\
  RFFKGauss_gen_features 1 0
    (mk_World counting_generator 7%nat reassigned_heap)
  = (Raise ValueError, mk_World counting_generator 7%nat reassigned_heap) /\
  np_random
    (snd (with_NumpySeedContext 5 (raise (A:=ndarray) ValueError)
            (mk_World counting_generator 7%nat example_heap)))
  = 7%nat /\
  (RFFKGauss_gen_features 2 0
     (mk_World counting_generator 7%nat example_heap)
   = (Return (spec_features counting_generator example_map example_X),
      mk_World counting_generator 7%nat example_heap) /\
   np_random_randn 1 2 (mk_World counting_generator 7%nat example_heap)
   = np_random_randn 1 2 (mk_World counting_generator 7%nat example_heap)).
Proof.
  destruct (RFFKGauss_gen_features_frame counting_generator)
    as (Hworld & Hstate & Hdraw).
  assert (Hrun :
    RFFKGauss_gen_features 2 0
      (mk_World counting_generator 7%nat example_heap)
    = (Return (spec_features counting_generator example_map example_X),
       mk_World counting_generator 7%nat example_heap)).
  { apply RFFKGauss_gen_features_run;
      [reflexivity | reflexivity | exact example_X_wf | reflexivity
      | reflexivity]. }
  split; [apply Hworld|]. split.
  { rewrite (surjective_pairing (RFFKGauss_gen_features 1 0 _)).
    rewrite Hworld. reflexivity. }
  split; [apply Hstate|].
  split; [exact Hrun|].
  exact (Hdraw 2%nat 0%nat _ _ _ 1%Z 2%nat Hrun).
Defined.

Lemma MarginalCDFMap_gen_features_range_witness :
  nth_error tied_heap 1 = Some MarginalCDFMap /\
  nth_error tied_heap 0 = Some (Ndarray tied_X) /\
  wf_ndarray tied_X /\ (1 <= nrows tied_X)%nat /\
  exists Z,
    gen_features 1 0 (mk_World counting_generator 7%nat tied_heap)
    = (Return Z, mk_World counting_generator 7%nat tied_heap) /\
    0 < entry Z 0 0 <= 1 /\
    list_max (col Z 0) = 0.75 /\
    (list_max (col Z 0) = 1 <-> 2%nat = 1%nat).
Proof.
  assert (Hn : (1 <= nrows tied_X)%nat) by (unfold nrows; simpl; lia).
  split; [reflexivity|]. split; [reflexivity|]. split; [exact tied_X_wf|].
  split; [exact Hn|].
  destruct (MarginalCDFMap_gen_features_range counting_generator
              (mk_World counting_generator 7%nat tied_heap) 1 0 tied_X
              eq_refl eq_refl tied_X_wf Hn)
    as (Z & Hrun & Hrange & Hmax).
  exists Z. split; [exact Hrun|]. split.
  - apply Hrange; unfold nrows, ncols; simpl; lia.
  - assert (Hj : (0 < ncols tied_X)%nat) by (unfold ncols; simpl; lia).
    destruct (Hmax 0%nat Hj) as [Hval Hiff].
    rewrite tied_column_count in Hval, Hiff.
    split; [|exact Hiff]. rewrite Hval. unfold nrows. simpl. lra.
Defined.

(** C6, as stated, fails when the largest value of a column is tied: for
    the column [1, 1] both entries receive the rank 1.5, and the largest
    entry of the result is 0.75, not 1. *)
Lemma MarginalCDFMap_gen_features_tied_maximum :
  nth_error tied_heap 1 = Some MarginalCDFMap /\
  nth_error tied_heap 0 = Some (Ndarray tied_X) /\
  wf_ndarray tied_X /\ (1 <= nrows tied_X)%nat /\
  exists Z,
    gen_features 1 0 (mk_World counting_generator 7%nat tied_heap)
    = (Return Z, mk_World counting_generator 7%nat tied_heap) /\
    col Z 0 = [0.75; 0.75] /\
    list_max (col Z 0) <> 1.
Proof.
  split; [reflexivity|]. split; [reflexivity|]. split; [exact tied_X_wf|].
  split; [unfold nrows; simpl; lia|].
  destruct (MarginalCDFMap_gen_features_run counting_generator
              (mk_World counting_generator 7%nat tied_heap) 1 0 tied_X
              eq_refl tied_X_wf)
    as (Z & Hrun & _ & _ & Hcol).
  exists Z. split; [exact Hrun|].
  assert (Hc : col Z 0 = [0.75; 0.75]).
  { rewrite Hcol by (unfold ncols; simpl; lia). exact tied_column_ranks. }
  split; [exact Hc|]. rewrite Hc. simpl. rewrite Rmax_left by lra. lra.
Qed.

(** * The further properties on concrete objects

    The world of these examples holds [more_heap]: X at reference 0, a
    MarginalCDFMap at 1, RFFKGauss instances at 2, 5 and 7 and other arrays
    at 3, 4 and 6. *)

Lemma shifted_X_wf : wf_ndarray shifted_X.
Proof. split; [reflexivity | repeat constructor]. Qed.

Lemma other_X_wf : wf_ndarray other_X.
Proof. split; [reflexivity | repeat constructor]. Qed.

Lemma reordered_X_wf : wf_ndarray reordered_X.
Proof. split; [reflexivity | repeat constructor]. Qed.

Lemma shifted_X_columns (j : nat) :
  (j < ncols example_X)%nat ->
  exists f : R -> R,
    (forall x y, x < y -> f x < f y) /\
    col shifted_X j = map f (col example_X j).
Proof.
  unfold ncols. simpl. intros Hj.
  destruct j as [|[|j]]; [| |lia].
  - exists (fun x => x + 1). split; [intros; lra|].
    unfold col. simpl. repeat (f_equal; try lra).
  - exists (fun x => x + 2). split; [intros; lra|].
    unfold col. simpl. repeat (f_equal; try lra).
Qed.

Lemma MarginalCDFMap_gen_features_order_witness :
  nth_error more_heap 1 = Some MarginalCDFMap /\
  nth_error more_heap 0 = Some (Ndarray example_X) /\
  wf_ndarray example_X /\
  entry example_X 0 0 = entry example_X 1 0 /\
  entry example_X 0 0 < entry example_X 2 0 /\
  exists Z,
    gen_features 1 0 (mk_World counting_generator 7%nat more_heap)
    = (Return Z, mk_World counting_generator 7%nat more_heap) /\
    entry Z 0 0 = entry Z 1 0 /\
    entry Z 0 0 < entry Z 2 0.
Proof.
  assert (Heq : entry example_X 0 0 = entry example_X 1 0) by reflexivity.
  assert (Hlt : entry example_X 0 0 < entry example_X 2 0).
  { unfold entry. simpl. lra. }
  split; [reflexivity|]. split; [reflexivity|]. split; [exact example_X_wf|].
  split; [exact Heq|]. split; [exact Hlt|].
  destruct (MarginalCDFMap_gen_features_order counting_generator
              (mk_World counting_generator 7%nat more_heap) 1 0 example_X
              eq_refl eq_refl example_X_wf)
    as (Z & Hrun & Hord).
  exists Z. split; [exact Hrun|]. split.
  - apply (Hord 0 1 0)%nat; try (unfold nrows, ncols; simpl; lia).
    exact Heq.
  - apply (Hord 0 2 0)%nat; try (unfold nrows, ncols; simpl; lia).
    exact Hlt.
Defined.

Lemma MarginalCDFMap_gen_features_empirical_cdf_witness :
  nth_error more_heap 1 = Some MarginalCDFMap /\
  nth_error more_heap 0 = Some (Ndarray example_X) /\
  wf_ndarray example_X /\
  count_eq (entry example_X 2 0) (col example_X 0) = 1%nat /\
  exists Z,
    gen_features 1 0 (mk_World counting_generator 7%nat more_heap)
    = (Return Z, mk_World counting_generator 7%nat more_heap) /\
    entry Z 2 0
    = INR (count_le (entry example_X 2 0) (col example_X 0))
      / INR (nrows example_X).
Proof.
  split; [reflexivity|]. split; [reflexivity|]. split; [exact example_X_wf|].
  split; [exact example_X_top_count|].
  destruct (MarginalCDFMap_gen_features_empirical_cdf counting_generator
              (mk_World counting_generator 7%nat more_heap) 1 0 example_X
              eq_refl eq_refl example_X_wf)
    as (Z & Hrun & Hcdf).
  exists Z. split; [exact Hrun|].
  apply (Hcdf 2 0)%nat; try (unfold nrows, ncols; simpl; lia).
  exact example_X_top_count.
Defined.

Lemma MarginalCDFMap_gen_features_increasing_invariant_witness :
  nth_error more_heap 1 = Some MarginalCDFMap /\
  nth_error more_heap 0 = Some (Ndarray example_X) /\
  wf_ndarray example_X /\
  nth_error more_heap 3 = Some (Ndarray shifted_X) /\
  wf_ndarray shifted_X /\ shape shifted_X = shape example_X /\
  exists Z,
    gen_features 1 0 (mk_World counting_generator 7%nat more_heap)
    = (Return Z, mk_World counting_generator 7%nat more_heap) /\
    gen_features 1 3 (mk_World counting_generator 7%nat more_heap)
    = (Return Z, mk_World counting_generator 7%nat more_heap).
Proof.
  split; [reflexivity|]. split; [reflexivity|]. split; [exact example_X_wf|].
  split; [reflexivity|]. split; [exact shifted_X_wf|].
  split; [reflexivity|].
  exact (MarginalCDFMap_gen_features_increasing_invariant counting_generator
           (mk_World counting_generator 7%nat more_heap)
           (mk_World counting_generator 7%nat more_heap)
           1 1 0 3 example_X shifted_X
           eq_refl eq_refl eq_refl example_X_wf eq_refl shifted_X_wf
           eq_refl shifted_X_columns).
Defined.

Lemma MarginalCDFMap_gen_features_idempotent_witness :
  nth_error more_heap 1 = Some MarginalCDFMap /\
  nth_error more_heap 0 = Some (Ndarray example_X) /\
  wf_ndarray example_X /\
  exists Z,
    gen_features 1 0 (mk_World counting_generator 7%nat more_heap)
    = (Return Z, mk_World counting_generator 7%nat more_heap) /\
    gen_features 1 0
      (mk_World counting_generator 9%nat [Ndarray Z; MarginalCDFMap])
    = (Return Z,
       mk_World counting_generator 9%nat [Ndarray Z; MarginalCDFMap]).
Proof.
  split; [reflexivity|]. split; [reflexivity|]. split; [exact example_X_wf|].
  destruct (MarginalCDFMap_gen_features_run counting_generator
              (mk_World counting_generator 7%nat more_heap) 1 0 example_X
              eq_refl example_X_wf)
    as (Z & Hrun & _).
  assert (Hfirst :
    gen_features 1 0 (mk_World counting_generator 7%nat more_heap)
    = (Return Z, mk_World counting_generator 7%nat more_heap)).
  { exact Hrun. }
  exists Z. split; [exact Hfirst|].
  exact (MarginalCDFMap_gen_features_idempotent counting_generator
           (mk_World counting_generator 7%nat more_heap)
           (mk_World counting_generator 9%nat [Ndarray Z; MarginalCDFMap])
           1 1 0 0 example_X Z
           eq_refl eq_refl example_X_wf Hfirst eq_refl eq_refl).
Defined.

Lemma MarginalCDFMap_gen_features_row_order_witness :
  nth_error more_heap 1 = Some MarginalCDFMap /\
  nth_error more_heap 0 = Some (Ndarray example_X) /\
  wf_ndarray example_X /\
  nth_error more_heap 6 = Some (Ndarray reordered_X) /\
  wf_ndarray reordered_X /\ shape reordered_X = shape example_X /\
  Permutation (data example_X) (data reordered_X) /\
  exists Z Z',
    gen_features 1 0 (mk_World counting_generator 7%nat more_heap)
    = (Return Z, mk_World counting_generator 7%nat more_heap) /\
    gen_features 1 6 (mk_World counting_generator 7%nat more_heap)
    = (Return Z', mk_World counting_generator 7%nat more_heap) /\
    Permutation (combine (data example_X) (data Z))
                (combine (data reordered_X) (data Z')).
Proof.
  assert (Hperm : Permutation (data example_X) (data reordered_X)).
  { exact (Permutation_app_comm [[1; 7]; [1; 5]] [[2; 5]]). }
  split; [reflexivity|]. split; [reflexivity|]. split; [exact example_X_wf|].
  split; [reflexivity|]. split; [exact reordered_X_wf|].
  split; [reflexivity|]. split; [exact Hperm|].
  exact (MarginalCDFMap_gen_features_row_order counting_generator
           (mk_World counting_generator 7%nat more_heap)
           (mk_World counting_generator 7%nat more_heap)
           1 1 0 6 example_X reordered_X
           eq_refl eq_refl eq_refl example_X_wf eq_refl reordered_X_wf
           eq_refl Hperm).
Defined.

Lemma RFFKGauss_gen_features_row_by_row_witness :
  RFFKGauss_init 1 4 None = Return example_map /\
  nth_error more_heap 2 = Some (RFFKGaussObj example_map) /\
  nth_error more_heap 0 = Some (Ndarray example_X) /\
  wf_ndarray example_X /\
  nth_error more_heap 4 = Some (Ndarray other_X) /\
  wf_ndarray other_X /\ ncols other_X = ncols example_X /\
  (0 < nrows example_X)%nat /\ (1 < nrows other_X)%nat /\
  nth 1 (data other_X) [] = nth 0 (data example_X) [] /\
  exists Z Z',
    gen_features 2 0 (mk_World counting_generator 7%nat more_heap)
    = (Return Z, mk_World counting_generator 7%nat more_heap) /\
    gen_features 2 4 (mk_World counting_generator 7%nat more_heap)
    = (Return Z', mk_World counting_generator 7%nat more_heap) /\
    nth 1 (data Z') [] = nth 0 (data Z) [].
Proof.
  assert (H0 : (0 < nrows example_X)%nat) by (unfold nrows; simpl; lia).
  assert (H1 : (1 < nrows other_X)%nat) by (unfold nrows; simpl; lia).
  split; [exact example_map_init|]. split; [reflexivity|].
  split; [reflexivity|]. split; [exact example_X_wf|].
  split; [reflexivity|]. split; [exact other_X_wf|].
  split; [reflexivity|]. split; [exact H0|]. split; [exact H1|].
  split; [reflexivity|].
  exact (RFFKGauss_gen_features_row_by_row counting_generator
           (mk_World counting_generator 7%nat more_heap)
           (mk_World counting_generator 7%nat more_heap)
           2 2 0 4 1 4%Z None example_map example_X other_X 0 1
           example_map_init eq_refl eq_refl eq_refl example_X_wf
           eq_refl other_X_wf eq_refl H0 H1 eq_refl).
Defined.

Lemma RFFKGauss_gen_features_width_witness :
  nth_error more_heap 5 = Some (RFFKGaussObj odd_map) /\
  nth_error more_heap 0 = Some (Ndarray example_X) /\
  wf_ndarray example_X /\
  0 < sigma2 odd_map /\ (0 < n_features odd_map)%Z /\
  Z.even (n_features odd_map) = false /\
  exists Z,
    gen_features 5 0 (mk_World counting_generator 7%nat more_heap)
    = (Return Z, mk_World counting_generator 7%nat more_heap) /\
    num_features 5 (Some 0%nat) (mk_World counting_generator 7%nat more_heap)
    = (Return 3%Z, mk_World counting_generator 7%nat more_heap) /\
    nrows Z = 3%nat /\ Z.of_nat (ncols Z) = 2%Z.
Proof.
  assert (Hs : 0 < sigma2 odd_map) by (simpl; lra).
  assert (Hpos : (0 < n_features odd_map)%Z) by (simpl; lia).
  split; [reflexivity|]. split; [reflexivity|]. split; [exact example_X_wf|].
  split; [exact Hs|]. split; [exact Hpos|]. split; [reflexivity|].
  destruct (RFFKGauss_gen_features_width counting_generator
              (mk_World counting_generator 7%nat more_heap) 5 0
              odd_map example_X eq_refl eq_refl example_X_wf Hs Hpos)
    as (Z & Hrun & Hnum & _ & Hrows & _ & _ & Hodd).
  exists Z. split; [exact Hrun|]. split; [exact Hnum|].
  split; [exact Hrows|]. exact (Hodd eq_refl).
Defined.

Lemma RFFKGauss_gen_features_zero_witness :
  nth_error more_heap 7 = Some (RFFKGaussObj zero_map) /\
  nth_error more_heap 0 = Some (Ndarray example_X) /\
  n_features zero_map = 0%Z /\
  gen_features 7 0 (mk_World counting_generator 7%nat more_heap)
  = (Raise ZeroDivisionError, mk_World counting_generator 7%nat more_heap).
Proof.
  split; [reflexivity|]. split; [reflexivity|]. split; [reflexivity|].
  exact (RFFKGauss_gen_features_zero counting_generator
           (mk_World counting_generator 7%nat more_heap) 7 0
           zero_map example_X eq_refl eq_refl eq_refl).
Defined.

Lemma RFFKGauss_gen_features_negative_witness :
  nth_error reassigned_heap 1 = Some (RFFKGaussObj reassigned_map) /\
  nth_error reassigned_heap 0 = Some (Ndarray example_X) /\
  (n_features reassigned_map < 0)%Z /\
  gen_features 1 0 (mk_World counting_generator 7%nat reassigned_heap)
  = (Raise ValueError, mk_World counting_generator 7%nat reassigned_heap).
Proof.
  assert (Hneg : (n_features reassigned_map < 0)%Z) by (simpl; lia).
  split; [reflexivity|]. split; [reflexivity|]. split; [exact Hneg|].
  exact (RFFKGauss_gen_features_negative counting_generator
           (mk_World counting_generator 7%nat reassigned_heap) 1 0
           reassigned_map example_X eq_refl eq_refl Hneg).
Defined.

Lemma RFFKGauss_gen_features_origin_witness :
  RFFKGauss_init 1 4 None = Return example_map /\
  nth_error more_heap 2 = Some (RFFKGaussObj example_map) /\
  nth_error more_heap 4 = Some (Ndarray other_X) /\
  wf_ndarray other_X /\
  (forall j, (j < ncols other_X)%nat -> entry other_X 0 j = 0) /\
  exists Z,
    gen_features 2 4 (mk_World counting_generator 7%nat more_heap)
    = (Return Z, mk_World counting_generator 7%nat more_heap) /\
    entry Z 0 1 = sqrt (2 / IZR 4) /\ entry Z 0 3 = 0.
Proof.
  assert (Hzero : forall j, (j < ncols other_X)%nat -> entry other_X 0 j = 0).
  { unfold ncols. simpl. intros j Hj.
    destruct j as [|[|j]]; [reflexivity | reflexivity | lia]. }
  split; [exact example_map_init|]. split; [reflexivity|].
  split; [reflexivity|]. split; [exact other_X_wf|]. split; [exact Hzero|].
  destruct (RFFKGauss_gen_features_origin counting_generator
              (mk_World counting_generator 7%nat more_heap) 2 4
              1 4%Z None example_map other_X
              example_map_init eq_refl eq_refl other_X_wf)
    as (Z & Hrun & Horigin).
  assert (H0 : (0 < nrows other_X)%nat) by (unfold nrows; simpl; lia).
  exists Z. split; [exact Hrun|]. split.
  - exact (Horigin 0%nat H0 Hzero 1%nat ltac:(simpl; lia)).
  - exact (Horigin 0%nat H0 Hzero 3%nat ltac:(simpl; lia)).
Defined.
